(** * gonih.org/lines: a Reader that maps byte offsets to line and column

    A shallow embedding of [lines/lines.go].  The wrapper decorates an
    [io.Reader], records the offset just past every newline that streams
    through it, and answers [Position] queries by binary search over the
    recorded offsets.

    Conventions of the embedding.
    - [int64] stream offsets ([offs], the entries of [lines], the argument of
      [Position]) are integers of [Z] and every addition or subtraction the
      source performs on them is written with its two's complement
      wrap-around ([wrap64]).
    - [int] values that index or measure a slice in memory (the loop counters
      of [Read] and of [sort.Search]) never exceed the length of that slice,
      so their arithmetic is exact; [Search_mid_exact] justifies the midpoint
      expression of [sort.Search].  [int] is taken to be 64 bits wide.
    - A panic is a result of its own ([Panics]), never an error value;
      indexing a slice out of range is one. *)

From Stdlib Require Import String ZArith List Lia Bool Sorted Permutation.
From Stdlib.Strings Require Import Byte.
From Equations Require Import Equations.
Import ListNotations.
Local Open Scope Z_scope.

(** ** Go values used by the package *)

Module Go.

Definition min_int64 : Z := - 2 ^ 63.
Definition max_int64 : Z := 2 ^ 63 - 1.

(** Two's complement reduction of an integer to [int64]. *)
Definition wrap64 (z : Z) : Z := (z + 2 ^ 63) mod 2 ^ 64 - 2 ^ 63.

(** Conversion [uint(x)] of a 64-bit [int]. *)
Definition to_uint (z : Z) : Z := z mod 2 ^ 64.

Definition in_int64 (z : Z) : Prop := min_int64 <= z <= max_int64.

(** The result of a call: a normal return or a panic with its message. *)
Inductive outcome (A : Type) : Type :=
| Returns (a : A)
| Panics (msg : string).
Arguments Returns {A} a.
Arguments Panics {A} msg.

(** Error values; [None] of [option error] is Go's [nil]. *)
Inductive error : Type :=
| EOF
| ErrOther (msg : string).

(** A byte slice: the bytes of its backing array from the slice's first
    element up to its capacity, and its length. *)
Record slice : Type := MkSlice { arr : list byte; len : Z }.

Definition cap (p : slice) : Z := Z.of_nat (length (arr p)).

(** The slice expression [p[i:n]]: legal when [0 <= i <= n <= cap(p)]. *)
Definition reslice (p : slice) (i n : Z) : outcome slice :=
  if (0 <=? i) && (i <=? n) && (n <=? cap p)
  then Returns {| arr := skipn (Z.to_nat i) (arr p); len := n - i |}
  else Panics "slice bounds out of range".

(** The elements of a slice, [p[0:len(p)]]. *)
Definition elems (p : slice) : list byte := firstn (Z.to_nat (len p)) (arr p).

Definition newline : byte := x0a.

(** Indexing [l[i]] of an [[]int64]: a panic unless [0 <= i < len(l)]. *)
Definition int64_at (l : list Z) (i : Z) : outcome Z :=
  if (0 <=? i) && (i <? Z.of_nat (length l)) then
    match nth_error l (Z.to_nat i) with
    | Some x => Returns x
    | None => Panics "index out of range"
    end
  else Panics "index out of range".

(** [bytes.IndexByte] on a list of bytes: index of the first [c], or -1. *)
Fixpoint index_byte (bs : list byte) (c : byte) : Z :=
  match bs with
  | [] => -1
  | b :: bs' =>
      if Byte.eqb b c then 0
      else let j := index_byte bs' c in if j <? 0 then -1 else j + 1
  end.

Definition IndexByte (b : slice) (c : byte) : Z := index_byte (elems b) c.

(** An [io.Reader] value: a dynamic type, a current state of that type and
    its [Read] method.  The method receives the caller's buffer and yields
    the count, the error, the contents of the buffer's backing array after
    the call and the reader's next state. *)
Record io_Reader : Type := MkReader {
  rd_state : Type;
  rd_cur : rd_state;
  rd_Read : rd_state -> slice -> Z * option error * list byte * rd_state
}.

(** One call [s.Read(p)]. *)
Definition io_Read (s : io_Reader) (p : slice)
  : Z * option error * slice * io_Reader :=
  let '(n, err, a, st) := rd_Read s (rd_cur s) p in
  (n, err, {| arr := a; len := len p |},
   {| rd_state := rd_state s; rd_cur := st; rd_Read := rd_Read s |}).

(** [sort.Search]: the smallest index [i] in [[0, n]] with [f i] true,
    for [f] false on a prefix and true on the rest.  The loop keeps
    [0 <= i <= h < j <= n], with [h] the midpoint [int(uint(i+j) >> 1)].
    A panic of [f] ends the search. *)
Definition Search_mid (i j : Z) : Z := (i + j) / 2.

Equations? Search_loop (f : Z -> outcome bool) (i j : Z) : outcome Z
  by wf (Z.to_nat (j - i)) lt :=
  Search_loop f i j with Z_lt_dec i j => {
    | right _ := Returns i
    | left _ with f (Search_mid i j) => {
        | Panics msg := Panics msg
        | Returns false := Search_loop f (Search_mid i j + 1) j
        | Returns true := Search_loop f i (Search_mid i j) } }.
Proof.
  all: unfold Search_mid; assert (i <= (i + j) / 2 < j)
         by (split; [apply Z.div_le_lower_bound | apply Z.div_lt_upper_bound]; lia);
       lia.
Qed.

Definition Search (n : Z) (f : Z -> outcome bool) : outcome Z :=
  Search_loop f 0 n.

(** [strings.Reader]: a string and the index of the next unread byte. *)
Record stringsReader : Type := MkStrings { sr_s : list byte; sr_i : Z }.

(** [copy(b, src)]: the first [min(len(b), len(src))] bytes of [src]
    overwrite the start of [b]'s backing array. *)
Definition copy (b : slice) (src : list byte) : Z * list byte :=
  let n := Z.min (len b) (Z.of_nat (length src)) in
  (n, firstn (Z.to_nat n) src ++ skipn (Z.to_nat n) (arr b)).

Definition stringsReader_Read (r : stringsReader) (b : slice)
  : Z * option error * list byte * stringsReader :=
  if Z.of_nat (length (sr_s r)) <=? sr_i r then (0, Some EOF, arr b, r)
  else
    let '(n, a) := copy b (skipn (Z.to_nat (sr_i r)) (sr_s r)) in
    (n, None, a, {| sr_s := sr_s r; sr_i := sr_i r + n |}).

(** [strings.NewReader(s)] as an [io.Reader]. *)
Definition strings_NewReader (str : list byte) : io_Reader :=
  {| rd_state := stringsReader;
     rd_cur := {| sr_s := str; sr_i := 0 |};
     rd_Read := stringsReader_Read |}.

(** A fresh buffer [make([]byte, n)]. *)
Definition make (n : Z) : slice :=
  {| arr := repeat x00 (Z.to_nat n); len := n |}.

End Go.

Import Go.

(** ** Package lines *)

Module Lines.

(** The wrapper.  Its mutex [mu] guards the three fields below and carries
    no data; the order in which the methods take it is the subject of
    [Locking]. *)
Record Reader : Type := MkReader {
  r : io_Reader;
  offs : Z;
  lines : list Z
}.

Definition NewReader (src : io_Reader) : Reader :=
  {| r := src; offs := 0; lines := [] |}.

(** The loop of [Read] over the bytes [p[0:n]] the source produced:
<<
    for i := 0; i < n; {
        j := bytes.IndexByte(p[i:n], '\n')
        if j < 0 { break }
        i += j + 1
        r.lines = append(r.lines, r.offs+int64(i))
    }
>>
    [o] is [r.offs], which the loop does not change, and [ls] is [r.lines]. *)
Equations? Read_loop (p : slice) (n o i : Z) (ls : list Z) : outcome (list Z)
  by wf (Z.to_nat (n - i)) lt :=
  Read_loop p n o i ls with Z_lt_dec i n => {
    | right _ := Returns ls
    | left _ with reslice p i n => {
        | Panics msg := Panics msg
        | Returns q with IndexByte q newline => {
            | j with Z_lt_dec j 0 => {
                | left _ := Returns ls
                | right _ :=
                    Read_loop p n o (i + (j + 1))
                      (ls ++ [wrap64 (o + (i + (j + 1)))]) } } } }.
Proof. lia. Qed.

(** [Read]: the count and error of the source, the wrapper after the call
    and the caller's buffer after the call.  A panic (the source reported
    more bytes than the buffer has room for) ends the call. *)
Definition Read (rd : Reader) (p : slice)
  : outcome (Z * option error * Reader * slice) :=
  let '(n, err, p', src') := io_Read (r rd) p in
  match Read_loop p' n (offs rd) 0 (lines rd) with
  | Panics msg => Panics msg
  | Returns ls =>
      Returns (n, err,
               {| r := src'; offs := wrap64 (offs rd + n); lines := ls |}, p')
  end.

Definition Size (rd : Reader) : Z := offs rd.

(** The function [Position] hands to [sort.Search]:
    [func(i int) bool { return offs < r.lines[i] }]. *)
Definition probe (rd : Reader) (o : Z) (i : Z) : outcome bool :=
  match int64_at (lines rd) i with
  | Panics msg => Panics msg
  | Returns x => Returns (o <? x)
  end.

Definition Position (rd : Reader) (o : Z) : outcome (Z * Z) :=
  if o <? 0 then Panics "Position called with negative offset"
  else
    match Search (Z.of_nat (length (lines rd))) (probe rd o) with
    | Panics msg => Panics msg
    | Returns i =>
        if i =? 0 then Returns (1, wrap64 (o + 1))
        else
          match int64_at (lines rd) (i - 1) with
          | Panics msg => Panics msg
          | Returns x => Returns (i + 1, wrap64 (wrap64 (o - x) + 1))
          end
    end.

Definition Line (rd : Reader) (o : Z) : outcome Z :=
  match Position rd o with
  | Returns (l, _) => Returns l
  | Panics msg => Panics msg
  end.

Definition Column (rd : Reader) (o : Z) : outcome Z :=
  match Position rd o with
  | Returns (_, c) => Returns c
  | Panics msg => Panics msg
  end.

Definition Reset (rd : Reader) (nr : io_Reader) : Reader :=
  {| r := nr; offs := 0; lines := [] |}.

End Lines.

Import Lines.

(** ** What the specification says, as functions of its own

    These follow the words of the specification and are compared with the
    code below. *)

Module Spec.

(** Offsets immediately after each line-break marker of [bs], for [bs]
    starting at offset [k] of the stream, in stream order. *)
Fixpoint breaks_from (k : Z) (bs : list byte) : list Z :=
  match bs with
  | [] => []
  | b :: bs' =>
      if Byte.eqb b newline then (k + 1) :: breaks_from (k + 1) bs'
      else breaks_from (k + 1) bs'
  end.

(** Number of line-break markers among [bs]. *)
Fixpoint count_markers (bs : list byte) : Z :=
  match bs with
  | [] => 0
  | b :: bs' => (if Byte.eqb b newline then 1 else 0) + count_markers bs'
  end.

(** Number of entries of [ls] that are [<= o]. *)
Fixpoint count_le (ls : list Z) (o : Z) : Z :=
  match ls with
  | [] => 0
  | x :: ls' => (if x <=? o then 1 else 0) + count_le ls' o
  end.

(** Entry [i] of a sequence, and 0 where it has none. *)
Definition index (l : list Z) (i : Z) : Z := nth (Z.to_nat i) l 0.

(** Index of the first entry strictly greater than [o], or the length of
    the sequence if none is greater. *)
Fixpoint first_greater (ls : list Z) (o : Z) : Z :=
  match ls with
  | [] => 0
  | x :: ls' => if o <? x then 0 else 1 + first_greater ls' o
  end.

(** The position query of section 4.3, in unbounded integers. *)
Definition position (ls : list Z) (o : Z) : Z * Z :=
  let i := first_greater ls o in
  if i =? 0 then (1, o + 1) else (i + 1, o - index ls (i - 1) + 1).

(** Positions of the line-break markers within [bs], counted from [k]
    for the first byte. *)
Fixpoint marker_positions_from (k : Z) (bs : list byte) : list Z :=
  match bs with
  | [] => []
  | b :: bs' =>
      if Byte.eqb b newline then k :: marker_positions_from (k + 1) bs'
      else marker_positions_from (k + 1) bs'
  end.

Definition marker_positions (bs : list byte) : list Z :=
  marker_positions_from 0 bs.

(** Sorted strictly ascending, hence without duplicates. *)
Definition ascending (ls : list Z) : Prop := StronglySorted Z.lt ls.

(** The bytes [[0, o)] of a stream. *)
Definition upto (o : Z) (bs : list byte) : list byte := firstn (Z.to_nat o) bs.

End Spec.

Import Spec.

(** ** Clients of the wrapper *)

Module Client.

(** The bytes [p[0:n]] that a read reporting [n] delivered into [p]. *)
Definition produced (p : slice) (n : Z) : list byte :=
  firstn (Z.to_nat n) (arr p).

(** A buffer a caller may pass: [0 <= len(p) <= cap(p)]. *)
Definition valid (p : slice) : Prop := 0 <= len p <= cap p.

(** The contract of [io.Reader]: on a buffer [p], [Read] reports
    [0 <= n <= len(p)], and the buffer's backing array keeps its size. *)
Definition io_contract (src : io_Reader) : Prop :=
  forall st p,
    valid p ->
    let '(n, _, a, _) := rd_Read src st p in
    0 <= n <= len p /\ length a = length (arr p).

(** [io.Copy(io.Discard, r)], as the test uses it to consume a stream:
    [io.Discard] reads into one buffer, over and over, until the reader
    reports an error.  [fuel] bounds the number of reads; [None] means the
    bound was too small. *)
Fixpoint Copy_Discard (fuel : nat) (rd : Reader) (buf : slice)
  : option (outcome Reader) :=
  match fuel with
  | O => None
  | S fuel' =>
      match Read rd buf with
      | Panics msg => Some (Panics msg)
      | Returns (_, Some _, rd', _) => Some (Returns rd')
      | Returns (_, None, rd', buf') => Copy_Discard fuel' rd' buf'
      end
  end.

(** The buffer of [io.Discard] holds 8192 bytes. *)
Definition discard_buffer : slice := make 8192.

(** The operations that change a wrapper. *)
Inductive op : Type :=
| OpRead (p : slice)
| OpReset (nr : io_Reader).

Definition op_ok (o : op) : Prop :=
  match o with
  | OpRead p => valid p
  | OpReset nr => io_contract nr
  end.

(** A run of operations on a wrapper.  Next to the wrapper it yields the
    bytes delivered from the current source, in order; the wrapper itself
    does not keep them. *)
Fixpoint run (rd : Reader) (d : list byte) (ops : list op)
  : outcome (Reader * list byte) :=
  match ops with
  | [] => Returns (rd, d)
  | OpRead p :: ops' =>
      match Read rd p with
      | Panics msg => Panics msg
      | Returns (n, _, rd', p') => run rd' (d ++ produced p' n) ops'
      end
  | OpReset nr :: ops' => run (Reset rd nr) [] ops'
  end.

(** The state of the data model: [offs] counts the delivered bytes and
    [lines] holds, strictly ascending, offsets after markers among them. *)
Definition Inv (rd : Reader) : Prop :=
  0 <= offs rd <= max_int64 /\
  ascending (lines rd) /\
  Forall (fun x => 1 <= x <= offs rd) (lines rd).

(** Since a state with byte count [o0] and index [l0], the wrapper has
    counted the bytes [d] and recorded the offset after each of their
    markers. *)
Definition extends (o0 : Z) (l0 : list Z) (rd : Reader) (d : list byte)
  : Prop :=
  offs rd = o0 + Z.of_nat (length d) /\ lines rd = l0 ++ breaks_from o0 d.

(** The wrapper records exactly the markers of the delivered bytes [d]. *)
Definition tracks (rd : Reader) (d : list byte) : Prop := extends 0 [] rd d.

End Client.

Import Client.

(** ** The order of locking in the methods *)

Module Locking.

(** What a method does that matters to other goroutines: operations on
    the wrapper's mutex [mu], the call [r.r.Read(p)] into the wrapped
    source, and accesses to the wrapper's own fields. *)
Inductive instr : Type :=
| Lock | Unlock | RLock | RUnlock
| SourceRead
| Fields.

(** The methods in program order; a deferred unlock runs when its method
    returns. *)
Definition Read_steps : list instr := [Lock; SourceRead; Fields; Unlock].
Definition Size_steps : list instr := [RLock; Fields; RUnlock].
Definition Position_steps : list instr := [RLock; Fields; RUnlock].
Definition Reset_steps : list instr := [Lock; Fields; Unlock].

(** [sync.RWMutex]: one writer or any number of readers. *)
Record RWMutex : Type := MkMutex { writer : bool; readers : nat }.

Definition free : RWMutex := {| writer := false; readers := 0 |}.

Definition held (m : RWMutex) : bool :=
  writer m || negb (Nat.eqb (readers m) 0).

(** One instruction on the mutex; [None] when the goroutine must wait:
    for the mutex, or in [SourceRead] for a source that is not [ready]. *)
Definition exec (m : RWMutex) (ready : bool) (i : instr) : option RWMutex :=
  match i with
  | Lock => if held m then None else Some {| writer := true; readers := 0 |}
  | Unlock => Some {| writer := false; readers := readers m |}
  | RLock =>
      if writer m then None
      else Some {| writer := false; readers := S (readers m) |}
  | RUnlock => Some {| writer := writer m; readers := Nat.pred (readers m) |}
  | SourceRead => if ready then Some m else None
  | Fields => Some m
  end.

(** The mutex at the moment a method calls into the wrapped source. *)
Fixpoint mutex_at_source (m : RWMutex) (code : list instr)
  : option RWMutex :=
  match code with
  | [] => None
  | SourceRead :: _ => Some m
  | i :: rest =>
      match exec m true i with
      | Some m' => mutex_at_source m' rest
      | None => None
      end
  end.

(** Goroutines sharing one wrapper: the mutex, whether the wrapped source
    has bytes at hand, and what remains of each goroutine's method. *)
Record system : Type := MkSystem {
  mu : RWMutex;
  source_ready : bool;
  threads : list (list instr)
}.

Fixpoint set_thread (ts : list (list instr)) (t : nat) (c : list instr)
  : list (list instr) :=
  match ts, t with
  | [], _ => []
  | _ :: ts', O => c :: ts'
  | x :: ts', S t' => x :: set_thread ts' t' c
  end.

(** Goroutine [t] takes its next step, if it can. *)
Definition step (s : system) (t : nat) : option system :=
  match nth_error (threads s) t with
  | Some (i :: rest) =>
      match exec (mu s) (source_ready s) i with
      | Some m' =>
          Some {| mu := m'; source_ready := source_ready s;
                  threads := set_thread (threads s) t rest |}
      | None => None
      end
  | _ => None
  end.

(** Goroutine [t] has work left and cannot take a step. *)
Definition stalled (s : system) (t : nat) : bool :=
  match nth_error (threads s) t, step s t with
  | Some (_ :: _), None => true
  | _, _ => false
  end.

(** What the specification asks of [Read]: the mutex is free whenever a
    method calls into the wrapped source. *)
Definition no_lock_across_source (code : list instr) : Prop :=
  forall m, mutex_at_source free code = Some m -> held m = false.

End Locking.

(** ** The inputs of the package's test *)

Module Tests.

Definition foo_bar_baz : list byte :=
  list_byte_of_string "foo" ++ [newline] ++ list_byte_of_string "bar"
  ++ [newline] ++ list_byte_of_string "baz".

Definition foo_bar_baz_nl : list byte := foo_bar_baz ++ [newline].

(** [io.Copy(io.Discard, NewReader(strings.NewReader(in)))] *)
Definition consume (input : list byte) : option (outcome Reader) :=
  Copy_Discard 3 (NewReader (strings_NewReader input)) discard_buffer.

(** Two sources in turn, read in pieces. *)
Definition ops_two_sources : list op :=
  [OpRead (make 5); OpReset (strings_NewReader foo_bar_baz_nl);
   OpRead (make 4); OpRead (make 16)].

(** The source, the buffer and the wrapper after [foo_bar_baz] went
    through the wrapper in one read of 16 bytes. *)
Definition source_at_end : io_Reader :=
  {| rd_state := stringsReader;
     rd_cur := {| sr_s := foo_bar_baz; sr_i := 11 |};
     rd_Read := stringsReader_Read |}.

Definition buffer_after : slice :=
  {| arr := foo_bar_baz ++ repeat x00 5; len := 16 |}.

Definition reader_4_8 : Reader :=
  {| r := source_at_end; offs := 11; lines := [4; 8] |}.

(** A wrapper that has read the first five bytes of [foo_bar_baz]. *)
Definition reader_midway : Reader :=
  {| r := {| rd_state := stringsReader;
             rd_cur := {| sr_s := foo_bar_baz; sr_i := 5 |};
             rd_Read := stringsReader_Read |};
     offs := 5; lines := [4] |}.

(** A reader amid its call into a source that has nothing to deliver yet,
    and two queries about to start. *)
Definition blocked_read : Locking.system :=
  {| Locking.mu := Locking.free;
     Locking.source_ready := false;
     Locking.threads := [Locking.Read_steps; Locking.Position_steps;
                         Locking.Size_steps] |}.

(** The same input, a byte at a time and in one piece. *)
Definition bytewise : list slice := repeat (make 1) 11.
Definition at_once : list slice := [make 8192].

End Tests.

Import Tests.

(** ** Sources for the further properties *)

Module Sources.

(** A [strings.Reader] over [str] with [i] bytes already read. *)
Definition strings_at (str : list byte) (i : Z) : io_Reader :=
  {| rd_state := stringsReader;
     rd_cur := {| sr_s := str; sr_i := i |};
     rd_Read := stringsReader_Read |}.

(** A reader that reports the count [n] whatever the buffer, and leaves
    the buffer alone: outside the contract of [io.Reader] when [n] is
    negative or exceeds the buffer. *)
Definition reports (n : Z) : io_Reader :=
  {| rd_state := unit;
     rd_cur := tt;
     rd_Read := fun st p => (n, None, arr p, st) |}.

End Sources.

Import Sources.

(** ** Package stack *)

Module Stack.

Section Stack.
Context {T : Type}.

(** A stack is a slice whose last element is the top. *)
Definition Stack : Type := list T.

(** [Push] appends [v] to the slice [s] points to. *)
Definition Push (s : Stack) (v : T) : Stack := s ++ [v].

(** [Pop] assigns [s[:len(s)-1]] and [s[len(s)-1]] at once, for [s] the
    slice the receiver points to: the slice expression is evaluated
    first and needs [0 <= len(s)-1]; then the index. *)
Definition Pop (s : Stack) : outcome (T * Stack) :=
  let n := Z.of_nat (length s) in
  if 0 <=? n - 1 then
    match nth_error s (Z.to_nat (n - 1)) with
    | Some v => Returns (v, firstn (Z.to_nat (n - 1)) s)
    | None => Panics "index out of range"
    end
  else Panics "slice bounds out of range".

(** [Top] is [s[len(s)-1]]. *)
Definition Top (s : Stack) : outcome T :=
  let n := Z.of_nat (length s) in
  if (0 <=? n - 1) && (n - 1 <? n) then
    match nth_error s (Z.to_nat (n - 1)) with
    | Some v => Returns v
    | None => Panics "index out of range"
    end
  else Panics "index out of range".

Definition Len (s : Stack) : Z := Z.of_nat (length s).

(** A client that pushes the values of [vs] in order. *)
Definition push_all (s : Stack) (vs : list T) : Stack := fold_left Push vs s.

(** A client that pops [k] times and collects what it gets, in order. *)
Fixpoint pop_n (k : nat) (s : Stack) : outcome (list T * Stack) :=
  match k with
  | O => Returns ([], s)
  | S k' =>
      match Pop s with
      | Panics msg => Panics msg
      | Returns (v, s') =>
          match pop_n k' s' with
          | Panics msg => Panics msg
          | Returns (vs, s'') => Returns (v :: vs, s'')
          end
      end
  end.

End Stack.

End Stack.

(** ** Package cmp *)

Module Cmp.

(** The constraint [Ordered]: a type with Go's [<] and [==].  [x > y] is
    [y < x] and [x != y] is the negation of [x == y]. *)
Class Ordered (T : Type) : Type := {
  less : T -> T -> bool;
  equal : T -> T -> bool
}.

(** [int] *)
#[export] Instance Ordered_int : Ordered Z := {| less := Z.ltb; equal := Z.eqb |}.

(** A type in which [<] is a strict total order and [==] is equality, as
    for the integer and string types; floating-point types are not, for
    their NaN. *)
Class TotalOrdered (T : Type) `{Ordered T} : Prop := {
  equal_eq : forall x y, equal x y = true <-> x = y;
  less_irrefl : forall x, less x x = false;
  less_trans : forall x y z,
    less x y = true -> less y z = true -> less x z = true;
  less_total : forall x y, less x y = true \/ x = y \/ less y x = true
}.

(** A type with NaN-like values, unequal to themselves and to all others
    and not less than anything: [None] plays the NaN among the integers
    [Some z]. *)
#[export] Instance Ordered_with_NaN : Ordered (option Z) := {|
  less := fun x y =>
    match x, y with Some a, Some b => Z.ltb a b | _, _ => false end;
  equal := fun x y =>
    match x, y with Some a, Some b => Z.eqb a b | _, _ => false end
|}.

Section Ordered.
Context {T : Type} `{Ordered T}.

(** [x != x] *)
Definition isNaN (x : T) : bool := negb (equal x x).

Definition Less (x y : T) : bool := (isNaN x && negb (isNaN y)) || less x y.

Definition Compare (x y : T) : Z :=
  let xNaN := isNaN x in
  let yNaN := isNaN y in
  if xNaN && yNaN then 0
  else if xNaN || less x y then -1
  else if yNaN || less y x then 1
  else 0.

End Ordered.

(** [Bool] on [T ~bool] *)
Definition Bool (x y : bool) : Z :=
  if Bool.eqb x y then 0
  else if Bool.eqb x true then 1
  else -1.

(** A comparator.  A comparator is a Go function and may panic, as the
    one [Deref] makes does on a nil pointer. *)
Definition Cmp (T : Type) : Type := T -> T -> outcome Z.

(** A function without panics, such as [Compare], used as a comparator. *)
Definition Cmp_of {T : Type} (f : T -> T -> Z) : Cmp T :=
  fun a b => Returns (f a b).

Definition id {T : Type} (v : T) : T := v.

Section Comparators.
Context {T : Type}.

(** The method [Less] of a comparator. *)
Definition Cmp_Less (cmp : Cmp T) (a b : T) : outcome bool :=
  match cmp a b with
  | Returns c => Returns (c <? 0)
  | Panics msg => Panics msg
  end.

Fixpoint Chain (cmp : list (Cmp T)) : Cmp T :=
  fun l r =>
    match cmp with
    | [] => Returns 0
    | cmp0 :: rest =>
        match cmp0 l r with
        | Panics msg => Panics msg
        | Returns c =>
            if c <? 0 then Returns (-1)
            else if 0 <? c then Returns 1
            else Chain rest l r
        end
    end.

Definition Reverse (cmp : Cmp T) : Cmp T := fun l r => cmp r l.

(** Indexing [l[i]] of a slice, which panics out of range. *)
Definition at_index (l : list T) (i : Z) : outcome T :=
  if (0 <=? i) && (i <? Z.of_nat (length l)) then
    match nth_error l (Z.to_nat i) with
    | Some v => Returns v
    | None => Panics "index out of range"
    end
  else Panics "index out of range".

(** The loop of [SliceFunc], [count] iterations from index [i] on:
    [Some c] when the loop returns [c], [None] when it runs to its end. *)
Fixpoint SliceFunc_loop (cmp : Cmp T) (l r : list T) (count : nat) (i : Z)
  : outcome (option Z) :=
  match count with
  | O => Returns None
  | S count' =>
      match at_index l i with
      | Panics msg => Panics msg
      | Returns a =>
          match at_index r i with
          | Panics msg => Panics msg
          | Returns b =>
              match cmp a b with
              | Panics msg => Panics msg
              | Returns c =>
                  if negb (c =? 0) then Returns (Some c)
                  else SliceFunc_loop cmp l r count' (i + 1)
              end
          end
      end
  end.

(** [SliceFunc]: the loop runs while [i < len(l) && i < len(r)]. *)
Definition SliceFunc (cmp : Cmp T) : Cmp (list T) :=
  fun l r =>
    let n := Z.min (Z.of_nat (length l)) (Z.of_nat (length r)) in
    match SliceFunc_loop cmp l r (Z.to_nat n) 0 with
    | Panics msg => Panics msg
    | Returns (Some c) => Returns c
    | Returns None =>
        Returns (Compare (Z.of_nat (length l)) (Z.of_nat (length r)))
    end.

(** A pointer [*T] is nil ([None]) or points to a value. *)
Definition Deref (cmp : Cmp T) : Cmp (option T) :=
  fun l r =>
    match l, r with
    | Some a, Some b => cmp a b
    | _, _ => Panics "nil pointer dereference"
    end.

Definition ByFunc {C : Type} (by_ : C -> T) (cmp : Cmp T) : Cmp C :=
  fun l r => cmp (by_ l) (by_ r).

Definition ByPointerFunc {C : Type} (by_ : C -> option T)
  (cmp : Cmp (option T)) : Cmp C :=
  fun l r =>
    let pl := by_ l in
    let pr := by_ r in
    match pl, pr with
    | None, None => Returns 0
    | None, _ => Returns (-1)
    | _, None => Returns 1
    | _, _ => cmp pl pr
    end.

Definition PointerFunc (cmp : Cmp (option T)) : Cmp (option T) :=
  ByPointerFunc id cmp.

End Comparators.

Section OrderedComparators.
Context {T : Type} `{Ordered T}.

(** The loop of [Slice] over the first [n] indices. *)
Fixpoint Slice_loop (l r : list T) (count : nat) (i : Z)
  : outcome (option Z) :=
  match count with
  | O => Returns None
  | S count' =>
      match at_index l i with
      | Panics msg => Panics msg
      | Returns a =>
          match at_index r i with
          | Panics msg => Panics msg
          | Returns b =>
              let c := Compare a b in
              if negb (c =? 0) then Returns (Some c)
              else Slice_loop l r count' (i + 1)
          end
      end
  end.

Definition Slice (l r : list T) : outcome Z :=
  let n := Z.of_nat (length l) in
  let n := if Z.of_nat (length r) <? n then Z.of_nat (length r) else n in
  match Slice_loop l r (Z.to_nat n) 0 with
  | Panics msg => Panics msg
  | Returns (Some c) => Returns c
  | Returns None =>
      Returns (Compare (Z.of_nat (length l)) (Z.of_nat (length r)))
  end.

Definition Pointer (l r : option T) : outcome Z :=
  PointerFunc (Deref (Cmp_of Compare)) l r.

Definition By {C : Type} (by_ : C -> T) : Cmp C :=
  ByFunc by_ (Cmp_of Compare).

Definition ByPointer {C : Type} (by_ : C -> option T) : Cmp C :=
  ByPointerFunc by_ (Deref (Cmp_of Compare)).

End OrderedComparators.

(** Lexicographic comparison by recursion on the two sequences, against
    which the index loops are compared. *)
Fixpoint lex {T : Type} (cmp : T -> T -> Z) (l r : list T) : Z :=
  match l, r with
  | [], [] => 0
  | [], _ :: _ => -1
  | _ :: _, [] => 1
  | a :: l', b :: r' => if cmp a b =? 0 then lex cmp l' r' else cmp a b
  end.

(** The first non-zero comparison of two elements at the same index. *)
Fixpoint first_difference {T : Type} (cmp : T -> T -> Z) (l r : list T)
  : option Z :=
  match l, r with
  | a :: l', b :: r' =>
      if cmp a b =? 0 then first_difference cmp l' r' else Some (cmp a b)
  | _, _ => None
  end.

(** The sign of a comparator's result. *)
Definition sign_of {T : Type} (cmp : Cmp T) (a b : T) (s : Z) : Prop :=
  exists c, cmp a b = Returns c /\ Z.sgn c = s.

(** A comparator fit for sorting: it never panics, exchanging its
    arguments flips the sign, and "not greater" is transitive. *)
Record ordering {T : Type} (cmp : Cmp T) : Prop := {
  ord_total : forall a b, exists c, cmp a b = Returns c;
  ord_flip : forall a b c c',
    cmp a b = Returns c -> cmp b a = Returns c' -> Z.sgn c' = - Z.sgn c;
  ord_trans : forall x y z c1 c2 c3,
    cmp x y = Returns c1 -> cmp y z = Returns c2 -> cmp x z = Returns c3 ->
    c1 <= 0 -> c2 <= 0 -> c3 <= 0
}.

End Cmp.

(** ** Package set *)

Module Sets.

(** The constraint [comparable]: a type with Go's [==].  Only key types
    whose [==] cannot panic are modelled (an interface holding a value
    that cannot be compared is not). *)
Class Comparable (E : Type) : Type := { equal : E -> E -> bool }.

(** What [==] satisfies at every such type: it is symmetric and
    transitive.  It need not be reflexive: a floating-point NaN differs
    from itself. *)
Class ComparableLaws (E : Type) `{Comparable E} : Prop := {
  equal_sym : forall x y, equal x y = equal y x;
  equal_trans : forall x y z,
    equal x y = true -> equal y z = true -> equal x z = true
}.

(** [int] *)
#[export] Instance Comparable_int : Comparable Z := {| equal := Z.eqb |}.

(** A key type with NaN-like values: [None] is unequal to every key,
    itself included. *)
#[export] Instance Comparable_with_NaN : Comparable (option Z) := {|
  equal := fun x y =>
    match x, y with Some a, Some b => Z.eqb a b | _, _ => false end
|}.

Section Maps.
Context {E : Type} `{Comparable E}.

(** A map with keys of [E] and values that carry nothing, as
    [map[E]struct{}] is: nil ([None]), or its entries, one key each.  A
    key that differs from itself is found by no lookup, so that each
    assignment of it makes an entry of its own.  The order of the list
    means nothing. *)
Definition Set_ : Type := option (list E).

Definition entries (s : Set_) : list E :=
  match s with
  | None => []
  | Some m => m
  end.

(** [make(Set[E])], with or without a size hint. *)
Definition make_ : Set_ := Some [].

(** [len(s)] *)
Definition len_ (s : Set_) : Z := Z.of_nat (length (entries s)).

(** [_, ok := s[v]]: whether some key of [s] equals [v]; false on nil. *)
Definition lookup (s : Set_) (v : E) : bool :=
  existsb (fun k => equal k v) (entries s).

(** [s[v] = struct{}{}]: a panic on the nil map; the entry of a key equal
    to [v] is overwritten, key included (equal keys can differ, as [+0]
    and [-0] do, and the runtime then stores the new one); without such
    an entry a new one is made. *)
Definition assign (s : Set_) (v : E) : outcome Set_ :=
  match s with
  | None => Panics "assignment to entry in nil map"
  | Some m =>
      if existsb (fun k => equal k v) m
      then Returns (Some (map (fun k => if equal k v then v else k) m))
      else Returns (Some (m ++ [v]))
  end.

(** [delete(s, v)]: removes the entry of a key equal to [v]; nothing to
    do on nil. *)
Definition delete (s : Set_) (v : E) : Set_ :=
  match s with
  | None => None
  | Some m => Some (filter (fun k => negb (equal k v)) m)
  end.

(** The keys of the entries that differ from themselves. *)
Definition unequal_to_self (vs : list E) : list E :=
  filter (fun k => negb (equal k k)) vs.

(** The entries of a map have pairwise unequal keys. *)
Fixpoint distinct (m : list E) : Prop :=
  match m with
  | [] => True
  | a :: l => Forall (fun b => equal a b = false) l /\ distinct l
  end.

(** Go leaves the order in which [range] visits a map unspecified, and
    two loops over one map need not agree.  [order m] is the order of
    one visit of the entries [m], and [order2 m] that of the second loop
    of a function with two; the properties proved of the loops hold for
    all orders that visit each entry once. *)
Variable order : list E -> list E.
Variable order2 : list E -> list E.

Definition range (s : Set_) : list E := order (entries s).
Definition range2 (s : Set_) : list E := order2 (entries s).

(** The methods return the map next to their result where they change
    it: a [Set] is a reference to the map. *)
Definition Add (s : Set_) (v : E) : outcome (bool * Set_) :=
  let ok := lookup s v in
  match assign s v with
  | Panics msg => Panics msg
  | Returns s' => Returns (negb ok, s')
  end.

Definition Delete (s : Set_) (v : E) : bool * Set_ :=
  let ok := lookup s v in
  (ok, delete s v).

Definition Contains (s : Set_) (v : E) : bool := lookup s v.

(** The loop [for ... { if p(v) { s.Add(v) } }] over the values [vs]. *)
Fixpoint add_each_if (p : E -> bool) (s : Set_) (vs : list E)
  : outcome Set_ :=
  match vs with
  | [] => Returns s
  | v :: vs' =>
      if p v then
        match Add s v with
        | Panics msg => Panics msg
        | Returns (_, s') => add_each_if p s' vs'
        end
      else add_each_if p s vs'
  end.

(** The loop [for ... { s.Add(v) }]. *)
Definition add_each (s : Set_) (vs : list E) : outcome Set_ :=
  add_each_if (fun _ => true) s vs.



(** [s.DeleteFunc(f)] deletes from the map it ranges over.  [range]
    does not visit an entry removed before it is reached; [Delete(v)]
    removes the entry just visited and no other, the keys of a map being
    pairwise unequal, so that the loop visits the entries the map had at
    its start. *)
Definition DeleteFunc (s : Set_) (f : E -> bool) : Set_ :=
  fold_left (fun s v => if f v then snd (Delete s v) else s) (range s) s.

(** The loop of [ContainsFunc], which returns at the first hit. *)
Fixpoint ContainsFunc_loop (f : E -> bool) (vs : list E) : bool :=
  match vs with
  | [] => false
  | v :: vs' => if f v then true else ContainsFunc_loop f vs'
  end.

Definition ContainsFunc (s : Set_) (f : E -> bool) : bool :=
  ContainsFunc_loop f (range s).

Definition Union (s t : Set_) : outcome Set_ :=
  match add_each make_ (range s) with
  | Panics msg => Panics msg
  | Returns out => add_each out (range2 t)
  end.

Definition Intersect (s t : Set_) : outcome Set_ :=
  let '(s, t) := if len_ t <? len_ s then (t, s) else (s, t) in
  add_each_if (fun v => Contains t v) make_ (range s).

Definition Difference (s t : Set_) : outcome Set_ :=
  add_each_if (fun v => negb (Contains t v)) make_ (range s).

Definition SymmetricDifference (s t : Set_) : outcome Set_ :=
  match add_each_if (fun v => negb (Contains t v)) make_ (range s) with
  | Panics msg => Panics msg
  | Returns out => add_each_if (fun v => negb (Contains s v)) out (range2 t)
  end.

End Maps.

Section KeysValues.
Context {K V : Type} `{Comparable K} `{Comparable V}.

(** A map [map[K]V] as its entries, a key and a value each; the nil map
    has none.  [morder] is the order of one visit by [range]. *)
Variable morder : list (K * V) -> list (K * V).

Definition Keys (m : list (K * V)) : outcome (@Set_ K) :=
  add_each make_ (map fst (morder m)).

Definition Values (m : list (K * V)) : outcome (@Set_ V) :=
  add_each make_ (map snd (morder m)).

End KeysValues.

(** An order of iteration that starts at the second entry. *)
Definition rotate {A : Type} (m : list A) : list A :=
  match m with
  | [] => []
  | a :: m' => m' ++ [a]
  end.

(** Two sets with a NaN-like key each, and a map with two NaN-like
    values, to try the operations on. *)
Definition s_1_nan : @Set_ (option Z) := Some [Some 1; None].
Definition s_nan_2 : @Set_ (option Z) := Some [None; Some 2].
Definition m_nan_nan : list (Z * option Z) := [(1, None); (2, None)].

End Sets.

(** ** Machine integers *)

Lemma wrap64_id z : in_int64 z -> wrap64 z = z.
Proof.
  unfold in_int64, min_int64, max_int64, wrap64. intros H.
  rewrite Z.mod_small; lia.
Qed.

Lemma wrap64_range z : in_int64 (wrap64 z).
Proof.
  unfold in_int64, min_int64, max_int64, wrap64.
  pose proof (Z.mod_pos_bound (z + 2 ^ 63) (2 ^ 64) ltac:(lia)). lia.
Qed.

(** The midpoint of [sort.Search], [int(uint(i+j) >> 1)], is the exact
    [(i + j) / 2] for indices of a slice, although [i + j] may overflow. *)
Lemma Search_mid_exact i j :
  0 <= i -> i <= j -> j <= max_int64 ->
  wrap64 (Z.shiftr (to_uint (wrap64 (i + j))) 1) = Search_mid i j.
Proof.
  unfold max_int64, to_uint, wrap64, Search_mid. intros Hi Hij Hj.
  rewrite Z.shiftr_div_pow2 by lia. change (2 ^ 1) with 2.
  assert (E : ((i + j + 2 ^ 63) mod 2 ^ 64 - 2 ^ 63) mod 2 ^ 64 = i + j).
  { rewrite Zminus_mod, Zmod_mod, <- Zminus_mod.
    replace (i + j + 2 ^ 63 - 2 ^ 63) with (i + j) by lia.
    apply Z.mod_small. lia. }
  rewrite E.
  assert (0 <= (i + j) / 2 < 2 ^ 63).
  { split; [apply Z.div_pos; lia | apply Z.div_lt_upper_bound; lia]. }
  rewrite Z.mod_small; lia.
Qed.

(** ** sort.Search *)

Lemma Search_mid_between i j : i < j -> i <= Search_mid i j < j.
Proof.
  intros Hij. unfold Search_mid. split;
    [apply Z.div_le_lower_bound | apply Z.div_lt_upper_bound]; lia.
Qed.

Lemma Search_loop_correct f i j g :
  i <= g <= j ->
  (forall k, i <= k < g -> f k = Returns false) ->
  (forall k, g <= k < j -> f k = Returns true) ->
  Search_loop f i j = Returns g.
Proof.
  funelim (Search_loop f i j); intros Hg Hlo Hhi;
    try (f_equal; lia);
    pose proof (Search_mid_between i j ltac:(lia)) as Hm;
    destruct (Z_lt_dec (Search_mid i j) g) as [Hlt | Hge];
    try (rewrite Hlo in Heq by lia; discriminate);
    try (rewrite Hhi in Heq by lia; discriminate).
  - apply H; [lia | assumption | intros k Hk; apply Hhi; lia].
  - apply H; [lia | intros k Hk; apply Hlo; lia | assumption].
Qed.

(** Whatever [f] answers, the search stays within [[i, j]] and probes [f]
    only at indices of [[i, j)]: it returns as soon as [f] returns
    there. *)
Lemma Search_loop_range f i j :
  i <= j ->
  (forall k, i <= k < j -> exists b, f k = Returns b) ->
  exists g, Search_loop f i j = Returns g /\ i <= g <= j.
Proof.
  funelim (Search_loop f i j); intros Hij Hf.
  - exists i. split; [reflexivity | lia].
  - pose proof (Search_mid_between i j ltac:(lia)) as Hm.
    destruct (H ltac:(lia)) as (g & Eg & Hg);
      [intros k Hk; apply Hf; lia |].
    exists g. split; [exact Eg | lia].
  - pose proof (Search_mid_between i j ltac:(lia)) as Hm.
    destruct (H ltac:(lia)) as (g & Eg & Hg);
      [intros k Hk; apply Hf; lia |].
    exists g. split; [exact Eg | lia].
  - pose proof (Search_mid_between i j ltac:(lia)) as Hm.
    destruct (Hf (Search_mid i j) Hm) as [b Eb]. congruence.
Qed.

Lemma index_cons x ls k : 0 < k -> index (x :: ls) k = index ls (k - 1).
Proof.
  intros Hk. unfold index.
  replace (Z.to_nat k) with (S (Z.to_nat (k - 1))) by lia. reflexivity.
Qed.

Lemma first_greater_range ls o :
  0 <= first_greater ls o <= Z.of_nat (length ls).
Proof.
  induction ls as [| x ls IH]; cbn [first_greater length]; [lia |].
  rewrite Nat2Z.inj_succ. destruct (o <? x); lia.
Qed.

Lemma first_greater_before ls o k :
  0 <= k < first_greater ls o -> index ls k <= o.
Proof.
  revert k. induction ls as [| x ls IH]; cbn [first_greater]; intros k;
    [lia |].
  destruct (Z.ltb_spec o x) as [Hlt | Hge]; intros Hk; [lia |].
  destruct (Z.eq_dec k 0) as [-> | Hk0]; [exact Hge |].
  rewrite index_cons by lia. apply IH. lia.
Qed.

Lemma ascending_head_lt x ls k :
  ascending (x :: ls) -> 0 <= k < Z.of_nat (length ls) -> x < index ls k.
Proof.
  intros Hs Hk. inversion Hs as [| ? ? _ Hall]; subst.
  rewrite Forall_forall in Hall. apply Hall. unfold index.
  apply nth_In. lia.
Qed.

Lemma first_greater_after ls o k :
  ascending ls ->
  first_greater ls o <= k < Z.of_nat (length ls) -> o < index ls k.
Proof.
  revert k. induction ls as [| x ls IH]; cbn [first_greater length];
    intros k Hs; [lia |].
  rewrite Nat2Z.inj_succ.
  pose proof (first_greater_range ls o) as Hr.
  destruct (Z.ltb_spec o x) as [Hlt | Hge]; intros Hk.
  - destruct (Z.eq_dec k 0) as [-> | Hk0]; [exact Hlt |].
    rewrite index_cons by lia.
    pose proof (ascending_head_lt x ls (k - 1) Hs ltac:(lia)). lia.
  - rewrite index_cons by lia. apply IH; [| lia].
    inversion Hs; assumption.
Qed.

(** In an ascending sequence the entries [<= o] are a prefix, so counting
    them and searching for the first greater entry agree. *)
Lemma count_le_first_greater ls o :
  ascending ls -> count_le ls o = first_greater ls o.
Proof.
  induction ls as [| x ls IH]; cbn [count_le first_greater]; intros Hs;
    [reflexivity |].
  inversion Hs as [| ? ? Hs' Hall]; subst.
  destruct (Z.ltb_spec o x) as [Hlt | Hge].
  - destruct (Z.leb_spec x o); [lia |].
    clear IH Hs Hs'.
    induction Hall as [| y ls Hy _ IH]; cbn [count_le]; [reflexivity |].
    destruct (Z.leb_spec y o); lia.
  - destruct (Z.leb_spec x o); [| lia]. rewrite IH by assumption. reflexivity.
Qed.

(** The binary search of [Position] finds the index the specification
    names. *)
Lemma int64_at_in_range ls k :
  0 <= k < Z.of_nat (length ls) -> int64_at ls k = Returns (index ls k).
Proof.
  intros Hk. unfold int64_at, index.
  destruct (Z.leb_spec 0 k); [| lia].
  destruct (Z.ltb_spec k (Z.of_nat (length ls))); [| lia]. cbn [andb].
  destruct (nth_error ls (Z.to_nat k)) as [x |] eqn:E.
  - rewrite (nth_error_nth _ _ _ E). reflexivity.
  - apply nth_error_None in E. lia.
Qed.

Lemma probe_in_range rd o k :
  0 <= k < Z.of_nat (length (lines rd)) ->
  probe rd o k = Returns (o <? index (lines rd) k).
Proof.
  intros Hk. unfold probe. rewrite int64_at_in_range by assumption.
  reflexivity.
Qed.

Lemma Search_first_greater rd o :
  ascending (lines rd) ->
  Search (Z.of_nat (length (lines rd))) (probe rd o)
  = Returns (first_greater (lines rd) o).
Proof.
  intros Hs. unfold Search.
  pose proof (first_greater_range (lines rd) o) as Hr.
  apply Search_loop_correct.
  - exact Hr.
  - intros k Hk. rewrite probe_in_range by lia. f_equal.
    apply Z.ltb_ge. apply first_greater_before. lia.
  - intros k Hk. rewrite probe_in_range by lia. f_equal.
    apply Z.ltb_lt. apply first_greater_after; assumption.
Qed.

(** ** bytes.IndexByte and the markers of a byte string *)

Lemma index_byte_range bs c :
  index_byte bs c = -1 \/ 0 <= index_byte bs c < Z.of_nat (length bs).
Proof.
  induction bs as [| b bs IH]; cbn [index_byte length]; [left; reflexivity |].
  rewrite Nat2Z.inj_succ.
  destruct (Byte.eqb b c); [right; lia |].
  destruct (Z.ltb_spec (index_byte bs c) 0); [left; reflexivity | right; lia].
Qed.

Lemma breaks_from_none k bs :
  index_byte bs newline < 0 -> breaks_from k bs = [].
Proof.
  revert k. induction bs as [| b bs IH]; cbn [index_byte breaks_from];
    intros k; [reflexivity |].
  destruct (Byte.eqb b newline); [lia |].
  destruct (Z.ltb_spec (index_byte bs newline) 0) as [Hlt | Hge]; intros H;
    [auto | lia].
Qed.

Lemma breaks_from_found k bs :
  let j := index_byte bs newline in
  0 <= j ->
  breaks_from k bs
  = (k + (j + 1)) :: breaks_from (k + (j + 1)) (skipn (Z.to_nat (j + 1)) bs).
Proof.
  revert k. induction bs as [| b bs IH]; cbn [index_byte breaks_from];
    intros k; [lia |].
  destruct (Byte.eqb b newline).
  - intros _. reflexivity.
  - destruct (Z.ltb_spec (index_byte bs newline) 0) as [Hlt | Hge];
      intros H; [lia |].
    rewrite IH by assumption.
    replace (Z.to_nat (index_byte bs newline + 1 + 1))
      with (S (Z.to_nat (index_byte bs newline + 1))) by lia.
    cbn [skipn].
    replace (k + 1 + (index_byte bs newline + 1))
      with (k + (index_byte bs newline + 1 + 1)) by lia.
    reflexivity.
Qed.

Lemma breaks_from_app k a b :
  breaks_from k (a ++ b)
  = breaks_from k a ++ breaks_from (k + Z.of_nat (length a)) b.
Proof.
  revert k. induction a as [| x a IH]; intros k.
  - simpl. f_equal. lia.
  - cbn [app breaks_from length]. rewrite IH.
    replace (k + 1 + Z.of_nat (length a)) with (k + Z.of_nat (S (length a))) by lia.
    destruct (Byte.eqb x newline); reflexivity.
Qed.

(** ** The scanning loop of Read *)

Lemma elems_reslice p i n q :
  reslice p i n = Returns q ->
  0 <= i <= n /\ n <= cap p /\
  elems q = skipn (Z.to_nat i) (produced p n).
Proof.
  unfold reslice, elems, produced.
  destruct (Z.leb_spec 0 i); cbn [andb]; [| discriminate].
  destruct (Z.leb_spec i n); cbn [andb]; [| discriminate].
  destruct (Z.leb_spec n (cap p)); [| discriminate].
  intros [= <-]. cbn [arr len]. repeat split; try lia.
  rewrite firstn_skipn_comm. f_equal. f_equal. lia.
Qed.

Lemma reslice_ok p i n :
  0 <= i <= n -> n <= cap p -> exists q, reslice p i n = Returns q.
Proof.
  intros Hi Hn. unfold reslice.
  destruct (Z.leb_spec 0 i); [| lia].
  destruct (Z.leb_spec i n); [| lia].
  destruct (Z.leb_spec n (cap p)); [| lia].
  eexists; reflexivity.
Qed.

Lemma length_produced p n :
  0 <= n <= cap p -> Z.of_nat (length (produced p n)) = n.
Proof.
  unfold produced, cap. intros H. rewrite length_firstn. lia.
Qed.

(** From index [i] on, the loop appends the offset after every marker of
    [p[i:n]], each reduced to [int64], in the order of the stream. *)
Lemma Read_loop_spec p n o i ls :
  0 <= i <= n -> n <= cap p ->
  Read_loop p n o i ls
  = Returns (ls ++ map wrap64
                     (breaks_from (o + i) (skipn (Z.to_nat i) (produced p n)))).
Proof.
  funelim (Read_loop p n o i ls); intros Hi Hn.
  - assert (i = n) by lia. subst i.
    rewrite skipn_all2 by (unfold produced; rewrite length_firstn; lia).
    cbn. rewrite app_nil_r. reflexivity.
  - destruct (reslice_ok p i n ltac:(lia) Hn) as [q Hq]. congruence.
  - destruct (elems_reslice _ _ _ _ Heq0) as (_ & _ & Hq).
    rewrite breaks_from_none by (rewrite <- Hq; assumption).
    cbn. rewrite app_nil_r. reflexivity.
  - destruct (elems_reslice _ _ _ _ Heq0) as (_ & _ & Hq).
    set (bs := skipn (Z.to_nat i) (produced p n)) in *.
    assert (Ej : IndexByte q newline = index_byte bs newline)
      by (unfold IndexByte; rewrite Hq; reflexivity).
    pose proof (index_byte_range bs newline) as Hj.
    assert (Hlen : Z.of_nat (length bs) = n - i).
    { pose proof (length_produced p n ltac:(lia)). subst bs.
      rewrite length_skipn. lia. }
    rewrite Hlen, <- Ej in Hj.
    rewrite H by lia.
    rewrite (breaks_from_found (o + i) bs) by lia.
    rewrite <- Ej. subst bs. rewrite skipn_skipn.
    replace (Z.to_nat (IndexByte q newline + 1) + Z.to_nat i)%nat
      with (Z.to_nat (i + (IndexByte q newline + 1))) by lia.
    cbn [map]. rewrite <- app_assoc. cbn [app].
    replace (o + i + (IndexByte q newline + 1))
      with (o + (i + (IndexByte q newline + 1))) by lia.
    reflexivity.
Qed.

(** ** Offsets after markers *)

Lemma breaks_from_positions_from o k bs :
  breaks_from (o + k) bs
  = map (fun x => o + x + 1) (marker_positions_from k bs).
Proof.
  revert k. induction bs as [| b bs IH]; intros k; [reflexivity |].
  cbn [breaks_from marker_positions_from].
  replace (o + k + 1) with (o + (k + 1)) by lia. rewrite IH.
  destruct (Byte.eqb b newline); [| reflexivity].
  cbn [map]. f_equal. lia.
Qed.

Lemma breaks_from_positions o bs :
  breaks_from o bs = map (fun x => o + x + 1) (marker_positions bs).
Proof.
  unfold marker_positions. rewrite <- breaks_from_positions_from.
  f_equal. lia.
Qed.

Lemma breaks_from_bounds k bs :
  Forall (fun x => k < x <= k + Z.of_nat (length bs)) (breaks_from k bs).
Proof.
  revert k. induction bs as [| b bs IH]; intros k; [constructor |].
  cbn [breaks_from length]. rewrite Nat2Z.inj_succ.
  assert (Ht : Forall (fun x => k < x <= k + Z.succ (Z.of_nat (length bs)))
                      (breaks_from (k + 1) bs)).
  { eapply Forall_impl; [| apply IH]. cbn beta. intros; lia. }
  destruct (Byte.eqb b newline); [constructor; [lia | exact Ht] | exact Ht].
Qed.

Lemma ascending_breaks_from k bs : ascending (breaks_from k bs).
Proof.
  revert k. induction bs as [| b bs IH]; intros k; [constructor |].
  cbn [breaks_from]. destruct (Byte.eqb b newline); [| apply IH].
  constructor; [apply IH |].
  eapply Forall_impl; [| apply breaks_from_bounds]. cbn beta. intros; lia.
Qed.

Lemma ascending_app l1 l2 :
  ascending l1 -> ascending l2 ->
  (forall x y, In x l1 -> In y l2 -> x < y) ->
  ascending (l1 ++ l2).
Proof.
  intros H1 H2 H. induction H1 as [| a l1 H1 IH Ha]; [exact H2 |].
  cbn [app]. constructor.
  - apply IH. intros x y Hx Hy. apply H; [right |]; assumption.
  - apply Forall_app. split; [exact Ha |].
    apply Forall_forall. intros y Hy. apply H; [left; reflexivity | exact Hy].
Qed.

Lemma map_wrap64_id ls : Forall in_int64 ls -> map wrap64 ls = ls.
Proof.
  induction 1 as [| x ls Hx _ IH]; [reflexivity |].
  cbn [map]. rewrite wrap64_id, IH by assumption. reflexivity.
Qed.

(** Number of recorded offsets [<= o] and number of markers before [o]. *)
Lemma count_le_breaks_from k bs o :
  count_le (breaks_from k bs) o = count_markers (firstn (Z.to_nat (o - k)) bs).
Proof.
  revert k. induction bs as [| b bs IH]; intros k.
  - rewrite firstn_nil. reflexivity.
  - cbn [breaks_from]. destruct (Z_le_dec (k + 1) o) as [Hle | Hgt].
    + replace (Z.to_nat (o - k)) with (S (Z.to_nat (o - (k + 1)))) by lia.
      cbn [firstn count_markers]. rewrite <- IH.
      destruct (Byte.eqb b newline); [| lia].
      cbn [count_le]. destruct (Z.leb_spec (k + 1) o); lia.
    + replace (Z.to_nat (o - k)) with 0%nat by lia.
      cbn [firstn count_markers].
      assert (E : count_le (breaks_from (k + 1) bs) o = 0).
      { rewrite IH. replace (Z.to_nat (o - (k + 1))) with 0%nat by lia.
        reflexivity. }
      destruct (Byte.eqb b newline); [| exact E].
      cbn [count_le]. rewrite E. destruct (Z.leb_spec (k + 1) o); lia.
Qed.

(** ** Read and Position, equationally *)

(** What one [Read] does when the source keeps within the buffer. *)
Lemma Read_eq rd p n err p' src' :
  io_Read (r rd) p = (n, err, p', src') ->
  0 <= n <= cap p' ->
  Read rd p
  = Returns (n, err,
             {| r := src';
                offs := wrap64 (offs rd + n);
                lines := lines rd
                         ++ map wrap64 (breaks_from (offs rd) (produced p' n)) |},
             p').
Proof.
  intros E Hn. unfold Read. rewrite E.
  rewrite Read_loop_spec by lia.
  cbn [Z.to_nat skipn]. rewrite Z.add_0_r. reflexivity.
Qed.

(** What [Position] does on an ascending index, in the source's own
    arithmetic. *)
Lemma Position_eq rd o :
  ascending (lines rd) -> 0 <= o ->
  Position rd o
  = let i := first_greater (lines rd) o in
    if i =? 0 then Returns (1, wrap64 (o + 1))
    else Returns (i + 1, wrap64 (wrap64 (o - index (lines rd) (i - 1)) + 1)).
Proof.
  intros Hs Ho. unfold Position.
  destruct (Z.ltb_spec o 0); [lia |].
  rewrite Search_first_greater by assumption. cbv zeta.
  destruct (Z.eqb_spec (first_greater (lines rd) o) 0) as [E | E];
    [reflexivity |].
  pose proof (first_greater_range (lines rd) o) as Hr.
  rewrite int64_at_in_range by lia. reflexivity.
Qed.

(** With every recorded offset positive, and [o] below the largest
    [int64], no operation of [Position] wraps around. *)
Lemma Position_position rd o :
  ascending (lines rd) -> Forall (fun x => 1 <= x) (lines rd) ->
  0 <= o < max_int64 ->
  Position rd o = Returns (position (lines rd) o).
Proof.
  intros Hs Hpos Ho. rewrite Position_eq by (assumption || lia).
  unfold position. cbv zeta.
  destruct (Z.eqb_spec (first_greater (lines rd) o) 0) as [E | E].
  - rewrite wrap64_id by (unfold in_int64, min_int64, max_int64 in *; lia).
    reflexivity.
  - pose proof (first_greater_range (lines rd) o) as Hr.
    pose proof (first_greater_before (lines rd) o
                  (first_greater (lines rd) o - 1) ltac:(lia)) as Hb.
    assert (Hl : 1 <= index (lines rd) (first_greater (lines rd) o - 1)).
    { rewrite Forall_forall in Hpos. apply Hpos. unfold index.
      apply nth_In. lia. }
    unfold max_int64 in Ho.
    rewrite !wrap64_id; [reflexivity | |];
      try rewrite wrap64_id;
      unfold in_int64, min_int64, max_int64; lia.
Qed.

(** ** Runs of operations *)

Lemma io_Read_contract src p n err p' src' :
  io_contract src -> valid p ->
  io_Read src p = (n, err, p', src') ->
  0 <= n <= cap p' /\ io_contract src'.
Proof.
  unfold io_contract, valid, io_Read, cap. intros Hc Hp E.
  specialize (Hc (rd_cur src) p Hp) as Hc1.
  destruct (rd_Read src (rd_cur src) p) as [[[n0 e0] a0] st0].
  injection E as <- <- <- <-. cbn [arr rd_Read]. split; [lia | exact Hc].
Qed.

Lemma Read_step rd p :
  io_contract (r rd) -> valid p ->
  exists n err p' src',
    io_Read (r rd) p = (n, err, p', src') /\
    0 <= n <= cap p' /\ io_contract src' /\
    Read rd p
    = Returns (n, err,
               {| r := src';
                  offs := wrap64 (offs rd + n);
                  lines := lines rd
                           ++ map wrap64
                                (breaks_from (offs rd) (produced p' n)) |},
               p').
Proof.
  intros Hc Hp.
  destruct (io_Read (r rd) p) as [[[n err] p'] src'] eqn:E.
  destruct (io_Read_contract _ _ _ _ _ _ Hc Hp E) as [Hn Hc'].
  exists n, err, p', src'. repeat split; try assumption; try lia.
  apply Read_eq; assumption.
Qed.

(** One [Read] keeps [extends], as long as the byte count fits [int64]. *)
Lemma extends_Read o0 l0 rd d p' n src' :
  min_int64 <= o0 -> 0 <= n <= cap p' ->
  extends o0 l0 rd d ->
  o0 + Z.of_nat (length (d ++ produced p' n)) <= max_int64 ->
  extends o0 l0
    {| r := src';
       offs := wrap64 (offs rd + n);
       lines := lines rd
                ++ map wrap64 (breaks_from (offs rd) (produced p' n)) |}
    (d ++ produced p' n).
Proof.
  intros Ho0 Hn [Eo El] Hmax. unfold extends. cbn [offs lines].
  rewrite length_app in *. rewrite Nat2Z.inj_add in *.
  pose proof (length_produced p' n Hn) as Hlen. rewrite Hlen in *.
  split.
  - rewrite wrap64_id; [lia |]. unfold in_int64. lia.
  - rewrite El, breaks_from_app, <- app_assoc, Eo. f_equal. f_equal.
    apply map_wrap64_id.
    eapply Forall_impl; [| apply breaks_from_bounds].
    cbn beta. rewrite Hlen. unfold in_int64. intros; lia.
Qed.

(** Reads alone extend the index of the state they start from. *)
Lemma run_reads_extends o0 l0 bufs : forall rd d,
  min_int64 <= o0 ->
  io_contract (r rd) -> Forall valid bufs ->
  (o0 + Z.of_nat (length d) <= max_int64 -> extends o0 l0 rd d) ->
  exists rd' d',
    run rd d (map OpRead bufs) = Returns (rd', d') /\
    (o0 + Z.of_nat (length d') <= max_int64 -> extends o0 l0 rd' d').
Proof.
  induction bufs as [| p bufs IH]; intros rd d Ho0 Hc Hv He.
  - exists rd, d. split; [reflexivity | exact He].
  - inversion Hv as [| ? ? Hp Hv']; subst.
    destruct (Read_step rd p Hc Hp) as (n & err & p' & src' & E & Hn & Hc' & ER).
    cbn [map run]. rewrite ER. apply IH; try assumption.
    intros Hmax. apply extends_Read; try assumption.
    apply He. rewrite length_app in Hmax. lia.
Qed.

(** Reads and resets keep [tracks]: a reset starts the count afresh. *)
Lemma run_tracks ops : forall rd d,
  io_contract (r rd) -> Forall op_ok ops ->
  (Z.of_nat (length d) <= max_int64 -> tracks rd d) ->
  exists rd' d',
    run rd d ops = Returns (rd', d') /\
    (Z.of_nat (length d') <= max_int64 -> tracks rd' d').
Proof.
  induction ops as [| [p | nr] ops IH]; intros rd d Hc Hv He.
  - exists rd, d. split; [reflexivity | exact He].
  - inversion Hv as [| ? ? Hp Hv']; subst. cbn [op_ok] in Hp.
    destruct (Read_step rd p Hc Hp) as (n & err & p' & src' & E & Hn & Hc' & ER).
    cbn [run]. rewrite ER. apply IH; try assumption.
    intros Hmax. rewrite length_app in Hmax.
    apply extends_Read;
      [unfold min_int64; lia | assumption | apply He; lia
      | rewrite length_app; lia].
  - inversion Hv as [| ? ? Hp Hv']; subst. cbn [op_ok] in Hp.
    cbn [run]. apply IH; try assumption.
    intros _. split; reflexivity.
Qed.

Lemma tracks_NewReader src : tracks (NewReader src) [].
Proof. split; reflexivity. Qed.

(** A tracking wrapper is in a state of the data model. *)
Lemma tracks_Inv rd d :
  tracks rd d -> Z.of_nat (length d) <= max_int64 -> Inv rd.
Proof.
  intros [Eo El] Hmax. cbn [app] in El. unfold Inv. rewrite Eo, El.
  repeat split; try lia.
  - apply ascending_breaks_from.
  - eapply Forall_impl; [| apply breaks_from_bounds]. cbn beta. intros; lia.
Qed.

(** Every run from a new wrapper ends in a state of the data model. *)
Lemma run_Inv src ops :
  io_contract src -> Forall op_ok ops ->
  exists rd d,
    run (NewReader src) [] ops = Returns (rd, d) /\
    (Z.of_nat (length d) <= max_int64 -> Inv rd).
Proof.
  intros Hc Hops.
  destruct (run_tracks ops (NewReader src) [] Hc Hops
              (fun _ => tracks_NewReader src)) as (rd & d & Hrun & Htr).
  exists rd, d. split; [exact Hrun |]. intros Hmax.
  apply (tracks_Inv rd d (Htr Hmax) Hmax).
Qed.

Lemma ascending_NoDup ls : ascending ls -> NoDup ls.
Proof.
  induction 1 as [| x ls _ IH Hx]; constructor; [| exact IH].
  intros Hin. rewrite Forall_forall in Hx. specialize (Hx x Hin). lia.
Qed.

Lemma stringsReader_contract st0 :
  io_contract {| rd_state := stringsReader; rd_cur := st0;
                 rd_Read := stringsReader_Read |}.
Proof.
  intros st p Hp. cbn [rd_Read].
  unfold stringsReader_Read, copy, valid, cap in *.
  destruct (Z.leb_spec (Z.of_nat (length (sr_s st))) (sr_i st)).
  - split; [lia | reflexivity].
  - set (src := skipn (Z.to_nat (sr_i st)) (sr_s st)).
    split; [lia |].
    rewrite length_app, length_firstn, length_skipn. lia.
Qed.

Lemma strings_contract str : io_contract (strings_NewReader str).
Proof. apply stringsReader_contract. Qed.

Lemma first_greater_app_gt l e o :
  Forall (fun x => o < x) e -> first_greater (l ++ e) o = first_greater l o.
Proof.
  intros He. induction l as [| x l IH]; cbn [app first_greater].
  - destruct He as [| y e Hy _]; [reflexivity |].
    cbn [first_greater]. destruct (Z.ltb_spec o y); [reflexivity | lia].
  - rewrite IH. reflexivity.
Qed.


Lemma position_app_gt l e o :
  Forall (fun x => o < x) e ->
  (let i := first_greater (l ++ e) o in
   if i =? 0 then Returns (1, wrap64 (o + 1))
   else Returns (i + 1, wrap64 (wrap64 (o - index (l ++ e) (i - 1)) + 1)))
  = (let i := first_greater l o in
     if i =? 0 then Returns (1, wrap64 (o + 1))
     else Returns (i + 1, wrap64 (wrap64 (o - index l (i - 1)) + 1))).
Proof.
  intros He. cbv zeta. rewrite first_greater_app_gt by assumption.
  destruct (Z.eqb_spec (first_greater l o) 0) as [E | E]; [reflexivity |].
  pose proof (first_greater_range l o) as Hr.
  unfold index. rewrite app_nth1 by lia. reflexivity.
Qed.

Lemma valid_make n : 0 <= n -> valid (make n).
Proof.
  intros Hn. unfold valid, cap, make. cbn [arr len].
  rewrite repeat_length. lia.
Qed.

(** * The claims *)

(** ** Position on the bytes read so far *)

(** C1.  After any sequence of reads (and resets) on a wrapper over a
    source that keeps the [io.Reader] contract, with fewer than [2^63]
    bytes delivered from the current source: for every offset [o] with
    [0 <= o < bytesConsumed], [Position(o)] returns a line that is one plus
    the number of entries of [lineBreakOffsets] that are [<= o], and that
    number of entries is the number of newline bytes among the bytes
    [[0, o)] delivered from the current source. *)
Theorem Position_line_counts_markers (src : io_Reader) (ops : list op) :
  io_contract src -> Forall op_ok ops ->
  exists rd d,
    run (NewReader src) [] ops = Returns (rd, d) /\
    (Z.of_nat (length d) <= max_int64 ->
     Size rd = Z.of_nat (length d) /\
     forall o, 0 <= o < Size rd ->
       exists line column,
         Position rd o = Returns (line, column) /\
         line = 1 + count_le (lines rd) o /\
         count_le (lines rd) o = count_markers (upto o d)).
Proof.
  intros Hc Hops.
  destruct (run_tracks ops (NewReader src) [] Hc Hops
              (fun _ => tracks_NewReader src)) as (rd & d & Hrun & Htr).
  exists rd, d. split; [exact Hrun |]. intros Hmax.
  specialize (Htr Hmax). pose proof (tracks_Inv rd d Htr Hmax) as (Ho & Hs & Hb).
  destruct Htr as [Eo El]. cbn [app] in El. unfold Size.
  split; [lia |]. intros o Hlt.
  exists (fst (position (lines rd) o)), (snd (position (lines rd) o)).
  split; [| split].
  - rewrite Position_position; [destruct (position (lines rd) o); reflexivity
                               | assumption | | lia].
    eapply Forall_impl; [| exact Hb]. cbn beta. intros; lia.
  - rewrite count_le_first_greater by assumption. unfold position.
    cbv zeta. destruct (Z.eqb_spec (first_greater (lines rd) o) 0) as [E | E];
      cbn [fst]; lia.
  - rewrite El, count_le_breaks_from. unfold upto. rewrite Z.sub_0_r.
    reflexivity.
Qed.

Lemma ops_two_sources_ok : Forall op_ok ops_two_sources.
Proof.
  repeat constructor; cbn [op_ok];
    try apply strings_contract; apply valid_make; lia.
Qed.

Lemma Position_line_counts_markers_witness :
  io_contract (strings_NewReader foo_bar_baz) /\
  Forall op_ok ops_two_sources /\
  exists rd d,
    run (NewReader (strings_NewReader foo_bar_baz)) [] ops_two_sources
    = Returns (rd, d) /\
    (Z.of_nat (length d) <= max_int64 ->
     Size rd = Z.of_nat (length d) /\
     forall o, 0 <= o < Size rd ->
       exists line column,
         Position rd o = Returns (line, column) /\
         line = 1 + count_le (lines rd) o /\
         count_le (lines rd) o = count_markers (upto o d)).
Proof.
  split; [apply strings_contract |].
  split; [apply ops_two_sources_ok |].
  apply (Position_line_counts_markers
           (strings_NewReader foo_bar_baz) ops_two_sources).
  - apply strings_contract.
  - apply ops_two_sources_ok.
Defined.

(** C2, as the specification has it, fails at the largest offset: on a
    new wrapper the search yields [i = 0] and [Position(2^63 - 1)]
    returns column [-2^63], not [o + 1], for [o + 1] is computed in
    [int64]. *)
Lemma Position_column_wraps_at_max_int64 :
  Inv (NewReader (reports 0)) /\
  0 <= max_int64 /\
  first_greater (lines (NewReader (reports 0))) max_int64 = 0 /\
  Position (NewReader (reports 0)) max_int64 = Returns (1, - 2 ^ 63) /\
  Position (NewReader (reports 0)) max_int64
  <> Returns (position (lines (NewReader (reports 0))) max_int64).
Proof.
  split; [| split; [| split; [| split]]].
  - unfold Inv, ascending, max_int64. cbn [NewReader offs lines].
    repeat split; try lia; constructor.
  - unfold max_int64. lia.
  - reflexivity.
  - reflexivity.
  - vm_compute. discriminate.
Qed.

(** C2, amended.  In every state of the data model ([lineBreakOffsets]
    strictly ascending, its entries offsets after markers of the bytes
    counted) and for every offset [o >= 0], the binary search of
    [Position(o)] yields the index [i] of the first entry strictly
    greater than [o], or the length if there is none, without reading
    the sequence out of range; [Position(o)], for every [o] of [int]
    ([0 <= o <= 2^63 - 1]), returns
    [(i + 1, o - lineBreakOffsets[i-1] + 1)] when [i > 0], and when
    [i = 0] it returns [(1, o + 1)] with [o + 1] computed in [int64]:
    that is [o + 1] for [o < 2^63 - 1] and [-2^63] for [o = 2^63 - 1]. *)
Theorem Position_binary_search (rd : Reader) (o : Z) :
  Inv rd -> 0 <= o ->
  Search (Z.of_nat (length (lines rd))) (probe rd o)
  = Returns (first_greater (lines rd) o) /\
  (o <= max_int64 ->
   Position rd o
   = Returns (let i := first_greater (lines rd) o in
              if i =? 0
              then (1, if o =? max_int64 then min_int64 else o + 1)
              else (i + 1, o - index (lines rd) (i - 1) + 1))).
Proof.
  intros (Ho & Hs & Hb) Hge. split.
  - apply Search_first_greater. exact Hs.
  - intros Hlt. rewrite Position_eq by (assumption || lia). cbv zeta.
    destruct (Z.eqb_spec (first_greater (lines rd) o) 0) as [E | E].
    + destruct (Z.eqb_spec o max_int64) as [-> | Hne]; [reflexivity |].
      rewrite wrap64_id; [reflexivity |].
      unfold in_int64, min_int64, max_int64 in *. lia.
    + pose proof (first_greater_range (lines rd) o) as Hr.
      pose proof (first_greater_before (lines rd) o
                    (first_greater (lines rd) o - 1) ltac:(lia)) as Hle.
      assert (Hl : 1 <= index (lines rd) (first_greater (lines rd) o - 1)).
      { rewrite Forall_forall in Hb.
        apply (Hb (index (lines rd) (first_greater (lines rd) o - 1))).
        unfold index. apply nth_In. lia. }
      unfold max_int64 in Hlt.
      rewrite (wrap64_id (o - _))
        by (unfold in_int64, min_int64, max_int64; lia).
      rewrite wrap64_id
        by (unfold in_int64, min_int64, max_int64; lia).
      reflexivity.
Qed.

Lemma Inv_reader_4_8 : Inv reader_4_8.
Proof.
  unfold Inv, reader_4_8, ascending, max_int64. cbn [offs lines].
  repeat split; try lia; repeat constructor; lia.
Qed.

Lemma Position_binary_search_witness :
  Inv reader_4_8 /\ 0 <= 7 /\ 7 <= max_int64 /\
  Search 2 (probe reader_4_8 7) = Returns 1 /\
  Position reader_4_8 7 = Returns (2, 4).
Proof.
  assert (Hmax : 7 <= max_int64) by (unfold max_int64; lia).
  split; [apply Inv_reader_4_8 |].
  split; [lia |]. split; [exact Hmax |].
  destruct (Position_binary_search reader_4_8 7 Inv_reader_4_8 ltac:(lia))
    as [Hs Hp].
  split; [exact Hs | exact (Hp Hmax)].
Defined.

(** ** Read *)

(** C3.  A [Read] whose source reports [n] bytes within the buffer, on a
    wrapper whose byte count stays within [int64]: the request goes to the
    wrapped source; for each newline at position [k] of the [n] bytes
    produced, and of no others, [offs + k + 1] is appended to
    [lineBreakOffsets] in stream order; [bytesConsumed] grows by [n]; the
    count [n], the error and the buffer are returned as the source left
    them. *)
Theorem Read_forwards_and_records
  (rd : Reader) (p : slice) (n : Z) (err : option error)
  (p' : slice) (src' : io_Reader) :
  io_Read (r rd) p = (n, err, p', src') ->
  0 <= n <= cap p' ->
  in_int64 (offs rd) -> offs rd + n <= max_int64 ->
  Read rd p
  = Returns (n, err,
             {| r := src';
                offs := offs rd + n;
                lines := lines rd
                         ++ map (fun k => offs rd + k + 1)
                              (marker_positions (produced p' n)) |},
             p').
Proof.
  intros E Hn Ho Hmax. rewrite (Read_eq rd p n err p' src' E Hn).
  unfold in_int64 in Ho.
  rewrite wrap64_id by (unfold in_int64; lia).
  rewrite map_wrap64_id.
  - rewrite breaks_from_positions. reflexivity.
  - eapply Forall_impl; [| apply breaks_from_bounds]. cbn beta.
    rewrite (length_produced p' n Hn). unfold in_int64. intros; lia.
Qed.

Lemma Read_forwards_and_records_witness :
  io_Read (strings_NewReader foo_bar_baz) (make 16)
  = (11, None, buffer_after, source_at_end) /\
  0 <= 11 <= cap buffer_after /\ in_int64 0 /\ 0 + 11 <= max_int64 /\
  Read (NewReader (strings_NewReader foo_bar_baz)) (make 16)
  = Returns (11, None,
             {| r := source_at_end; offs := 0 + 11;
                lines := [] ++ map (fun k => 0 + k + 1)
                                 (marker_positions (produced buffer_after 11)) |},
             buffer_after).
Proof.
  assert (E : io_Read (r (NewReader (strings_NewReader foo_bar_baz))) (make 16)
              = (11, None, buffer_after, source_at_end))
    by reflexivity.
  assert (Hn : 0 <= 11 <= cap buffer_after) by (unfold cap; cbn; lia).
  assert (Ho : in_int64 (offs (NewReader (strings_NewReader foo_bar_baz))))
    by (unfold in_int64, min_int64, max_int64; cbn; lia).
  assert (Hm : offs (NewReader (strings_NewReader foo_bar_baz)) + 11
               <= max_int64)
    by (unfold max_int64; cbn; lia).
  repeat (split; [assumption |]).
  exact (Read_forwards_and_records
           (NewReader (strings_NewReader foo_bar_baz)) (make 16) 11 None
           buffer_after source_at_end E Hn Ho Hm).
Defined.

(** ** Chunking *)

(** C4.  Two ways of reading the same byte string [s] (fewer than [2^63]
    bytes) through fresh wrappers, whatever the sources and the buffers of
    the reads: once all of [s] went through, [Position(o)] returns the
    same pair on both wrappers for every [0 <= o < len(s)], namely the
    position that [s] alone determines. *)
Theorem Position_chunking_independent
  (src1 src2 : io_Reader) (bufs1 bufs2 : list slice)
  (rd1 rd2 : Reader) (s : list byte) :
  io_contract src1 -> io_contract src2 ->
  Forall valid bufs1 -> Forall valid bufs2 ->
  run (NewReader src1) [] (map OpRead bufs1) = Returns (rd1, s) ->
  run (NewReader src2) [] (map OpRead bufs2) = Returns (rd2, s) ->
  Z.of_nat (length s) <= max_int64 ->
  forall o, 0 <= o < Z.of_nat (length s) ->
    Position rd1 o = Position rd2 o /\
    Position rd1 o = Returns (position (breaks_from 0 s) o).
Proof.
  intros Hc1 Hc2 Hv1 Hv2 R1 R2 Hmax o Ho.
  assert (H : forall src bufs rd,
             io_contract src -> Forall valid bufs ->
             run (NewReader src) [] (map OpRead bufs) = Returns (rd, s) ->
             Position rd o = Returns (position (breaks_from 0 s) o)).
  { intros src bufs rd Hc Hv R.
    destruct (run_reads_extends 0 [] bufs (NewReader src) []
                ltac:(unfold min_int64; lia) Hc Hv
                (fun _ => tracks_NewReader src)) as (rd' & d' & R' & Htr).
    rewrite R in R'. injection R' as <- <-.
    specialize (Htr Hmax).
    pose proof (tracks_Inv rd s Htr Hmax) as (_ & Hs & Hb).
    destruct Htr as [_ El]. cbn [app] in El.
    rewrite Position_position; [rewrite El; reflexivity | exact Hs | | lia].
    eapply Forall_impl; [| exact Hb]. cbn beta. intros; lia. }
  rewrite (H src1 bufs1 rd1), (H src2 bufs2 rd2) by assumption.
  split; reflexivity.
Qed.

Lemma Position_chunking_independent_witness :
  run (NewReader (strings_NewReader foo_bar_baz)) [] (map OpRead bytewise)
  = Returns (reader_4_8, foo_bar_baz) /\
  run (NewReader (strings_NewReader foo_bar_baz)) [] (map OpRead at_once)
  = Returns (reader_4_8, foo_bar_baz) /\
  forall o, 0 <= o < 11 ->
    Position reader_4_8 o = Position reader_4_8 o /\
    Position reader_4_8 o = Returns (position (breaks_from 0 foo_bar_baz) o).
Proof.
  assert (R1 : run (NewReader (strings_NewReader foo_bar_baz)) []
                 (map OpRead bytewise) = Returns (reader_4_8, foo_bar_baz))
    by (vm_compute; reflexivity).
  assert (R2 : run (NewReader (strings_NewReader foo_bar_baz)) []
                 (map OpRead at_once) = Returns (reader_4_8, foo_bar_baz))
    by (vm_compute; reflexivity).
  split; [exact R1 |]. split; [exact R2 |].
  apply (Position_chunking_independent
           (strings_NewReader foo_bar_baz) (strings_NewReader foo_bar_baz)
           bytewise at_once reader_4_8 reader_4_8 foo_bar_baz).
  - apply strings_contract.
  - apply strings_contract.
  - repeat constructor; apply valid_make; lia.
  - repeat constructor; apply valid_make; lia.
  - exact R1.
  - exact R2.
  - unfold max_int64. cbn. lia.
Defined.

(** ** The index stays sorted *)

(** C5.  After any sequence of reads and resets from a new wrapper, over
    sources that keep the [io.Reader] contract and with fewer than [2^63]
    bytes delivered from the current source, [lineBreakOffsets] is sorted
    strictly ascending and has no duplicates. *)
Theorem lines_strictly_ascending (src : io_Reader) (ops : list op) :
  io_contract src -> Forall op_ok ops ->
  exists rd d,
    run (NewReader src) [] ops = Returns (rd, d) /\
    (Z.of_nat (length d) <= max_int64 ->
     ascending (lines rd) /\ NoDup (lines rd)).
Proof.
  intros Hc Hops.
  destruct (run_tracks ops (NewReader src) [] Hc Hops
              (fun _ => tracks_NewReader src)) as (rd & d & Hrun & Htr).
  exists rd, d. split; [exact Hrun |]. intros Hmax.
  destruct (tracks_Inv rd d (Htr Hmax) Hmax) as (_ & Hs & _).
  split; [exact Hs | apply ascending_NoDup; exact Hs].
Qed.

Lemma lines_strictly_ascending_witness :
  io_contract (strings_NewReader foo_bar_baz) /\
  Forall op_ok ops_two_sources /\
  exists rd d,
    run (NewReader (strings_NewReader foo_bar_baz)) [] ops_two_sources
    = Returns (rd, d) /\
    (Z.of_nat (length d) <= max_int64 ->
     ascending (lines rd) /\ NoDup (lines rd)).
Proof.
  split; [apply strings_contract |].
  split; [apply ops_two_sources_ok |].
  apply (lines_strictly_ascending
           (strings_NewReader foo_bar_baz) ops_two_sources).
  - apply strings_contract.
  - apply ops_two_sources_ok.
Defined.

(** ** The test of the package *)

(** C6.  After [io.Copy(io.Discard, r)] consumed "foo\nbar\nbaz",
    [Position] returns (1,1) at offset 0, (1,4) at 3, (2,1) at 4, (2,4) at
    7, (3,1) at 8 and (3,13) at offset 20 beyond the end; after
    "foo\nbar\nbaz\n" it returns (4,9) at offset 20. *)
Theorem TestLines_positions :
  (exists rd,
     consume foo_bar_baz = Some (Returns rd) /\
     Position rd 0 = Returns (1, 1) /\
     Position rd 3 = Returns (1, 4) /\
     Position rd 4 = Returns (2, 1) /\
     Position rd 7 = Returns (2, 4) /\
     Position rd 8 = Returns (3, 1) /\
     Position rd 20 = Returns (3, 13)) /\
  (exists rd,
     consume foo_bar_baz_nl = Some (Returns rd) /\
     Position rd 20 = Returns (4, 9)).
Proof.
  split; eexists; (split; [vm_compute; reflexivity |]);
    repeat split; vm_compute; reflexivity.
Qed.

(** ** Negative offsets *)

(** C7.  In every state, [Position] panics on a negative offset, with no
    pair returned, and returns a pair on every offset [o >= 0]. *)
Theorem Position_negative_panics (rd : Reader) (o : Z) :
  (o < 0 ->
   Position rd o = Panics "Position called with negative offset") /\
  (0 <= o -> exists line column, Position rd o = Returns (line, column)).
Proof.
  unfold Position. destruct (Z.ltb_spec o 0) as [Hlt | Hge]; split; intros H;
    try lia; [reflexivity |].
  (* the search probes [r.lines] within its length only *)
  destruct (Search_loop_range (probe rd o) 0 (Z.of_nat (length (lines rd))))
    as (i & Ei & Hi); [lia | |].
  { intros k Hk. rewrite probe_in_range by lia. eexists; reflexivity. }
  unfold Search. rewrite Ei.
  destruct (Z.eqb_spec i 0) as [E | E]; [eexists; eexists; reflexivity |].
  (* and [i - 1] is an index of [r.lines] when [i] is not 0 *)
  rewrite int64_at_in_range by lia. eexists; eexists; reflexivity.
Qed.

Lemma Position_negative_panics_witness :
  Position reader_4_8 (-1)
  = Panics "Position called with negative offset" /\
  exists line column, Position reader_4_8 5 = Returns (line, column).
Proof.
  split.
  - apply (proj1 (Position_negative_panics reader_4_8 (-1))). lia.
  - apply (proj2 (Position_negative_panics reader_4_8 5)). lia.
Defined.

(** ** Reset *)

(** C8.  After [Reset] on any state the wrapped source is the new source,
    [bytesConsumed] is 0 and [lineBreakOffsets] is empty, which is the
    state of a new wrapper, and [Position(0)] returns (1, 1). *)
Theorem Reset_restores_initial_state (rd : Reader) (nr : io_Reader) :
  r (Reset rd nr) = nr /\
  offs (Reset rd nr) = 0 /\
  lines (Reset rd nr) = [] /\
  Reset rd nr = NewReader nr /\
  Position (Reset rd nr) 0 = Returns (1, 1).
Proof. repeat split. Qed.

(** ** Stability of answers *)

(** C10.  From a state of the data model and an offset [o] with
    [0 <= o < bytesConsumed], further reads (with the byte count staying
    within [int64]) only append offsets strictly greater than the old
    [bytesConsumed], and [Position(o)] is unchanged. *)
Theorem Position_stable_under_reads
  (rd : Reader) (bufs : list slice) (o : Z) :
  Inv rd -> io_contract (r rd) -> Forall valid bufs ->
  0 <= o < offs rd ->
  exists rd' d,
    run rd [] (map OpRead bufs) = Returns (rd', d) /\
    (offs rd + Z.of_nat (length d) <= max_int64 ->
     lines rd' = lines rd ++ breaks_from (offs rd) d /\
     Forall (fun x => offs rd < x) (breaks_from (offs rd) d) /\
     Position rd' o = Position rd o).
Proof.
  intros (Ho & Hs & Hb) Hc Hv Hlt.
  destruct (run_reads_extends (offs rd) (lines rd) bufs rd []
              ltac:(unfold min_int64; lia) Hc Hv) as (rd' & d & R & He).
  { intros _. split; [cbn; lia | cbn; rewrite app_nil_r; reflexivity]. }
  exists rd', d. split; [exact R |]. intros Hmax.
  destruct (He Hmax) as [_ El].
  assert (Hgt : Forall (fun x => offs rd < x) (breaks_from (offs rd) d)).
  { eapply Forall_impl; [| apply breaks_from_bounds]. cbn beta. intros; lia. }
  split; [exact El |]. split; [exact Hgt |].
  rewrite !Position_eq; try lia; try assumption.
  - rewrite El. apply position_app_gt.
    eapply Forall_impl; [| exact Hgt]. cbn beta. intros; lia.
  - rewrite El. apply ascending_app.
    + exact Hs.
    + apply ascending_breaks_from.
    + intros x y Hx Hy. rewrite Forall_forall in Hb, Hgt.
      specialize (Hb x Hx). specialize (Hgt y Hy). cbn beta in *. lia.
Qed.

Lemma Inv_reader_midway : Inv reader_midway.
Proof.
  unfold Inv, reader_midway, ascending, max_int64. cbn [offs lines].
  repeat split; try lia; repeat constructor; lia.
Qed.

Lemma Position_stable_under_reads_witness :
  Inv reader_midway /\ Forall valid [make 2; make 8] /\ 0 <= 4 < 5 /\
  exists rd' d,
    run reader_midway [] (map OpRead [make 2; make 8]) = Returns (rd', d) /\
    (5 + Z.of_nat (length d) <= max_int64 ->
     lines rd' = [4] ++ breaks_from 5 d /\
     Forall (fun x => 5 < x) (breaks_from 5 d) /\
     Position rd' 4 = Position reader_midway 4).
Proof.
  assert (Hv : Forall valid [make 2; make 8])
    by (repeat constructor; apply valid_make; lia).
  split; [apply Inv_reader_midway |].
  split; [exact Hv |]. split; [lia |].
  apply (Position_stable_under_reads reader_midway [make 2; make 8] 4).
  - apply Inv_reader_midway.
  - apply stringsReader_contract.
  - exact Hv.
  - cbn. lia.
Defined.

(** ** Locking *)

(** A query that wants the read lock waits as long as a writer holds the
    mutex. *)
Lemma RLock_waits_for_writer s t rest :
  Locking.writer (Locking.mu s) = true ->
  nth_error (Locking.threads s) t = Some (Locking.RLock :: rest) ->
  Locking.stalled s t = true.
Proof.
  intros Hw Ht. unfold Locking.stalled, Locking.step. rewrite Ht.
  cbn [Locking.exec]. rewrite Hw. reflexivity.
Qed.

(** C9, as the specification has it, fails: when [Read] calls into the
    wrapped source the mutex is held, by [Read] itself. *)
Lemma Read_lock_free_across_source_fails :
  ~ Locking.no_lock_across_source Locking.Read_steps.
Proof.
  intros H.
  specialize (H {| Locking.writer := true; Locking.readers := 0 |} eq_refl).
  discriminate H.
Qed.

(** C9, amended.  [Read] takes the wrapper's exclusive lock before it
    calls into the wrapped source and holds it across that call.  While
    the source has nothing to deliver, [Read] waits inside the call and
    concurrent [Position] and [Size] queries wait for the lock; queries
    that start before [Read] has locked are not held up. *)
Theorem Read_holds_lock_across_source :
  Locking.mutex_at_source Locking.free Locking.Read_steps
  = Some {| Locking.writer := true; Locking.readers := 0 |} /\
  Locking.stalled blocked_read 1 = false /\
  Locking.stalled blocked_read 2 = false /\
  exists s,
    Locking.step blocked_read 0 = Some s /\
    nth_error (Locking.threads s) 0
    = Some [Locking.SourceRead; Locking.Fields; Locking.Unlock] /\
    Locking.writer (Locking.mu s) = true /\
    Locking.stalled s 0 = true /\
    Locking.stalled s 1 = true /\
    Locking.stalled s 2 = true.
Proof.
  repeat split. eexists. repeat split.
Qed.

(** * Further properties of package lines *)

Lemma first_greater_mono ls o1 o2 :
  o1 <= o2 -> first_greater ls o1 <= first_greater ls o2.
Proof.
  intros Ho. induction ls as [| x ls IH]; cbn [first_greater]; [lia |].
  pose proof (first_greater_range ls o2).
  destruct (Z.ltb_spec o1 x), (Z.ltb_spec o2 x); lia.
Qed.

Lemma first_greater_all_le ls o :
  Forall (fun x => x <= o) ls -> first_greater ls o = Z.of_nat (length ls).
Proof.
  induction 1 as [| x ls Hx _ IH]; cbn [first_greater length]; [reflexivity |].
  rewrite Nat2Z.inj_succ. destruct (Z.ltb_spec o x); lia.
Qed.

Lemma first_greater_all_gt ls o :
  Forall (fun x => o < x) ls -> first_greater ls o = 0.
Proof.
  intros H. destruct H as [| x ls Hx _]; cbn [first_greater]; [reflexivity |].
  destruct (Z.ltb_spec o x); lia.
Qed.

Lemma index_last ls :
  ls <> [] -> index ls (Z.of_nat (length ls) - 1) = last ls 0.
Proof.
  intros Hne. destruct (exists_last Hne) as (l' & a & ->).
  rewrite last_last. unfold index. rewrite length_app. cbn [length].
  replace (Z.to_nat (Z.of_nat (length l' + 1) - 1)) with (length l') by lia.
  rewrite nth_middle. reflexivity.
Qed.

Lemma Inv_positive rd : Inv rd -> Forall (fun x => 1 <= x) (lines rd).
Proof.
  intros (_ & _ & Hb). eapply Forall_impl; [| exact Hb].
  cbn beta. intros; lia.
Qed.

(** X1.  In every state of the data model, offset 0 is line 1, column 1,
    however many line breaks are recorded. *)
Theorem Position_first_byte (rd : Reader) :
  Inv rd -> Position rd 0 = Returns (1, 1).
Proof.
  intros HI. pose proof HI as (Ho & Hs & Hb).
  rewrite Position_position;
    [| exact Hs | apply Inv_positive; exact HI | unfold max_int64; lia].
  unfold position. rewrite first_greater_all_gt; [reflexivity |].
  eapply Forall_impl; [| exact Hb]. cbn beta. intros; lia.
Qed.

Lemma Position_first_byte_witness :
  Inv reader_4_8 /\ Position reader_4_8 0 = Returns (1, 1).
Proof.
  split; [apply Inv_reader_4_8 |].
  apply (Position_first_byte reader_4_8). apply Inv_reader_4_8.
Defined.

(** X2.  In every state of the data model and for every offset
    [0 <= o < 2^63 - 1], [Position] returns a line between 1 and one more
    than the number of recorded line breaks, and a column between 1 and
    [o + 1]. *)
Theorem Position_one_based (rd : Reader) (o : Z) :
  Inv rd -> 0 <= o < max_int64 ->
  exists line column,
    Position rd o = Returns (line, column) /\
    1 <= line <= Z.of_nat (length (lines rd)) + 1 /\
    1 <= column <= o + 1.
Proof.
  intros HI Ho. pose proof HI as (_ & Hs & Hb).
  rewrite Position_position by (auto using Inv_positive).
  unfold position. cbv zeta.
  pose proof (first_greater_range (lines rd) o) as Hr.
  destruct (Z.eqb_spec (first_greater (lines rd) o) 0) as [E | E].
  - eexists; eexists. split; [reflexivity |]. lia.
  - eexists; eexists. split; [reflexivity |].
    pose proof (first_greater_before (lines rd) o
                  (first_greater (lines rd) o - 1) ltac:(lia)) as Hle.
    assert (1 <= index (lines rd) (first_greater (lines rd) o - 1)).
    { pose proof (Inv_positive rd HI) as Hp. rewrite Forall_forall in Hp.
      apply Hp. unfold index. apply nth_In. lia. }
    lia.
Qed.

Lemma Position_one_based_witness :
  Inv reader_4_8 /\ 0 <= 9 < max_int64 /\
  exists line column,
    Position reader_4_8 9 = Returns (line, column) /\
    1 <= line <= Z.of_nat (length (lines reader_4_8)) + 1 /\
    1 <= column <= 9 + 1.
Proof.
  split; [apply Inv_reader_4_8 |].
  split; [unfold max_int64; lia |].
  apply (Position_one_based reader_4_8 9).
  - apply Inv_reader_4_8.
  - unfold max_int64; lia.
Defined.

(** X3.  [Line] and [Column] follow the stream: in every state of the data
    model, for offsets [0 <= o1 <= o2 < 2^63 - 1], the line of [o1] is at
    most the line of [o2], and when both are on the same line their
    columns differ by [o2 - o1]. *)
Theorem Line_Column_monotone (rd : Reader) (o1 o2 : Z) :
  Inv rd -> 0 <= o1 -> o1 <= o2 -> o2 < max_int64 ->
  exists l1 c1 l2 c2,
    Line rd o1 = Returns l1 /\ Column rd o1 = Returns c1 /\
    Line rd o2 = Returns l2 /\ Column rd o2 = Returns c2 /\
    l1 <= l2 /\ (l1 = l2 -> c2 - c1 = o2 - o1).
Proof.
  intros HI H1 H12 H2. pose proof HI as (_ & Hs & _).
  unfold Line, Column.
  rewrite !Position_position by (auto using Inv_positive || lia).
  unfold position. cbv zeta.
  pose proof (first_greater_mono (lines rd) o1 o2 H12) as Hm.
  pose proof (first_greater_range (lines rd) o1) as Hr1.
  destruct (Z.eqb_spec (first_greater (lines rd) o1) 0) as [E1 | E1];
    destruct (Z.eqb_spec (first_greater (lines rd) o2) 0) as [E2 | E2];
    do 4 eexists; do 4 (split; [reflexivity |]);
    (split; [lia | intros E; try lia]).
  replace (first_greater (lines rd) o2)
    with (first_greater (lines rd) o1) by lia. lia.
Qed.

Lemma Line_Column_monotone_witness :
  Inv reader_4_8 /\
  exists l1 c1 l2 c2,
    Line reader_4_8 5 = Returns l1 /\ Column reader_4_8 5 = Returns c1 /\
    Line reader_4_8 7 = Returns l2 /\ Column reader_4_8 7 = Returns c2 /\
    l1 <= l2 /\ (l1 = l2 -> c2 - c1 = 7 - 5).
Proof.
  split; [apply Inv_reader_4_8 |].
  apply (Line_Column_monotone reader_4_8 5 7).
  - apply Inv_reader_4_8.
  - lia.
  - lia.
  - unfold max_int64; lia.
Defined.

(** X4.  An offset [o] at or beyond [Size], up to [2^63 - 1], is answered
    from what is known: it is placed on the line after the last recorded
    line break, with the column counted from that break, or from the
    start of the stream if no break is recorded.  The column is computed
    in [int64]: it is [o - lastBreak + 1], except that with no break
    recorded and [o = 2^63 - 1] it wraps around to [-2^63]. *)
Theorem Position_beyond_Size (rd : Reader) (o : Z) :
  Inv rd -> Size rd <= o -> o <= max_int64 ->
  Position rd o
  = Returns (Z.of_nat (length (lines rd)) + 1,
             match lines rd with
             | [] => if o =? max_int64 then min_int64 else o + 1
             | _ :: _ => o - last (lines rd) 0 + 1
             end).
Proof.
  intros HI Ho Hmax. pose proof HI as (Hoffs & Hs & Hb). unfold Size in Ho.
  rewrite Position_eq by (assumption || lia). cbv zeta.
  rewrite first_greater_all_le
    by (eapply Forall_impl; [| exact Hb]; cbn beta; intros; lia).
  destruct (lines rd) as [| x ls] eqn:El.
  - cbn [length Z.of_nat Z.eqb Z.add].
    destruct (Z.eqb_spec o max_int64) as [-> | Hne]; [reflexivity |].
    rewrite wrap64_id; [reflexivity |].
    unfold in_int64, min_int64, max_int64 in *. lia.
  - destruct (Z.eqb_spec (Z.of_nat (length (x :: ls))) 0) as [E | E];
      [cbn [length] in E; lia |].
    rewrite index_last by discriminate.
    assert (Hl : 1 <= last (x :: ls) 0 <= offs rd).
    { rewrite Forall_forall in Hb. apply (Hb (last (x :: ls) 0)).
      destruct (exists_last (l := x :: ls) ltac:(discriminate))
        as (l' & a & ->).
      rewrite last_last. apply in_or_app. right. left. reflexivity. }
    unfold max_int64 in Hmax.
    rewrite (wrap64_id (o - _))
      by (unfold in_int64, min_int64, max_int64; lia).
    rewrite wrap64_id by (unfold in_int64, min_int64, max_int64; lia).
    reflexivity.
Qed.

Lemma Position_beyond_Size_witness :
  Inv reader_4_8 /\ Size reader_4_8 <= 20 /\ 20 <= max_int64 /\
  Position reader_4_8 20 = Returns (2 + 1, 20 - 8 + 1).
Proof.
  split; [apply Inv_reader_4_8 |].
  split; [cbn; lia |]. split; [unfold max_int64; lia |].
  apply (Position_beyond_Size reader_4_8 20).
  - apply Inv_reader_4_8.
  - cbn; lia.
  - unfold max_int64; lia.
Defined.









(** ** Read against a source that breaks the contract of io.Reader *)

(** X7.  [Read] does not check the count it is given.  When the wrapped
    source reports a negative count, [Read] records no line break, adds
    the negative count to [offs] (so [Size] goes down) and returns the
    count and the error as they are. *)
Theorem Read_negative_count
  (rd : Reader) (p : slice) (n : Z) (err : option error)
  (p' : slice) (src' : io_Reader) :
  io_Read (r rd) p = (n, err, p', src') ->
  n < 0 ->
  Read rd p
  = Returns (n, err,
             {| r := src'; offs := wrap64 (offs rd + n); lines := lines rd |},
             p').
Proof.
  intros E Hn. unfold Read. rewrite E.
  rewrite Read_loop_equation_1.
  destruct (Z_lt_dec 0 n) as [H | H]; [lia | reflexivity].
Qed.

Lemma Read_negative_count_witness :
  io_Read (reports (-3)) (make 4) = (-3, None, make 4, reports (-3)) /\
  -3 < 0 /\
  Read {| r := reports (-3); offs := 5; lines := [4] |} (make 4)
  = Returns (-3, None,
             {| r := reports (-3); offs := wrap64 (5 + -3); lines := [4] |},
             make 4).
Proof.
  assert (E : io_Read (r {| r := reports (-3); offs := 5; lines := [4] |})
                (make 4) = (-3, None, make 4, reports (-3)))
    by reflexivity.
  split; [exact E |]. split; [lia |].
  exact (Read_negative_count
           {| r := reports (-3); offs := 5; lines := [4] |} (make 4) (-3)
           None (make 4) (reports (-3)) E ltac:(lia)).
Defined.



(** X9.  Reads keep the data model.  From any state of the data model,
    reads from a source that keeps the [io.Reader] contract return, and
    while the byte count fits [int64] they raise [Size] by the number of
    bytes delivered and leave a state of the data model. *)
Theorem Reads_preserve_Inv (rd : Reader) (bufs : list slice) :
  Inv rd -> io_contract (r rd) -> Forall valid bufs ->
  exists rd' d,
    run rd [] (map OpRead bufs) = Returns (rd', d) /\
    (Size rd + Z.of_nat (length d) <= max_int64 ->
     Size rd' = Size rd + Z.of_nat (length d) /\ Inv rd').
Proof.
  intros (Ho & Hs & Hb) Hc Hv. unfold Size.
  destruct (run_reads_extends (offs rd) (lines rd) bufs rd []
              ltac:(unfold min_int64; lia) Hc Hv) as (rd' & d & R & He).
  { intros _. split; [cbn; lia | cbn; rewrite app_nil_r; reflexivity]. }
  exists rd', d. split; [exact R |]. intros Hmax.
  destruct (He Hmax) as [Eo El]. split; [exact Eo |].
  unfold Inv. rewrite Eo, El. split; [lia |]. split.
  - apply ascending_app; [exact Hs | apply ascending_breaks_from |].
    intros x y Hx Hy. rewrite Forall_forall in Hb. specialize (Hb x Hx).
    pose proof (breaks_from_bounds (offs rd) d) as Hy'.
    rewrite Forall_forall in Hy'. specialize (Hy' y Hy). cbn beta in *. lia.
  - apply Forall_app. split.
    + eapply Forall_impl; [| exact Hb]. cbn beta. intros; lia.
    + eapply Forall_impl; [| apply breaks_from_bounds].
      cbn beta. intros; lia.
Qed.

Lemma Reads_preserve_Inv_witness :
  Inv reader_midway /\ Forall valid [make 2; make 8] /\
  exists rd' d,
    run reader_midway [] (map OpRead [make 2; make 8]) = Returns (rd', d) /\
    (Size reader_midway + Z.of_nat (length d) <= max_int64 ->
     Size rd' = Size reader_midway + Z.of_nat (length d) /\ Inv rd').
Proof.
  assert (Hv : Forall valid [make 2; make 8])
    by (repeat constructor; apply valid_make; lia).
  split; [apply Inv_reader_midway |]. split; [exact Hv |].
  apply (Reads_preserve_Inv reader_midway [make 2; make 8]).
  - apply Inv_reader_midway.
  - apply stringsReader_contract.
  - exact Hv.
Defined.

(** ** Consuming a whole string *)

Lemma io_Read_strings_at_end str i p :
  Z.of_nat (length str) <= i ->
  io_Read (strings_at str i) p
  = (0, Some EOF, {| arr := arr p; len := len p |}, strings_at str i).
Proof.
  intros Hi. unfold io_Read, strings_at. cbn [rd_Read rd_cur rd_state].
  unfold stringsReader_Read. cbn [sr_s sr_i].
  destruct (Z.leb_spec (Z.of_nat (length str)) i); [reflexivity | lia].
Qed.

Lemma io_Read_strings_at_more str i p :
  0 <= i < Z.of_nat (length str) -> valid p ->
  let n := Z.min (len p) (Z.of_nat (length str) - i) in
  exists p',
    io_Read (strings_at str i) p = (n, None, p', strings_at str (i + n)) /\
    len p' = len p /\ cap p' = cap p /\
    produced p' n = firstn (Z.to_nat n) (skipn (Z.to_nat i) str).
Proof.
  intros Hi Hp n. unfold valid, cap in Hp.
  unfold io_Read, strings_at. cbn [rd_Read rd_cur rd_state].
  unfold stringsReader_Read, copy. cbn [sr_s sr_i].
  destruct (Z.leb_spec (Z.of_nat (length str)) i); [lia |].
  rewrite length_skipn.
  replace (Z.min (len p) (Z.of_nat (length str - Z.to_nat i))) with n
    by (subst n; lia).
  eexists. split; [reflexivity |]. cbn [len arr]. split; [reflexivity |].
  assert (Hl : length (firstn (Z.to_nat n) (skipn (Z.to_nat i) str))
               = Z.to_nat n)
    by (rewrite length_firstn, length_skipn; subst n; lia).
  split.
  - unfold cap. cbn [arr]. rewrite length_app, Hl, length_skipn.
    subst n. lia.
  - unfold produced. cbn [arr].
    rewrite firstn_app, Hl, Nat.sub_diag, firstn_O, app_nil_r.
    rewrite firstn_firstn, Nat.min_id. reflexivity.
Qed.

Lemma firstn_add_skipn {A} (l : list A) a b :
  firstn a l ++ firstn b (skipn a l) = firstn (a + b) l.
Proof.
  revert l. induction a as [| a IH]; intros l; [reflexivity |].
  destruct l as [| x l]; [rewrite !firstn_nil; reflexivity |].
  cbn [Nat.add firstn skipn app]. rewrite IH. reflexivity.
Qed.

Lemma Copy_Discard_strings str (k : nat) : forall i rd buf,
  Z.of_nat (length str) <= max_int64 ->
  0 <= i <= Z.of_nat (length str) ->
  Z.of_nat (length str) - i <= Z.of_nat k ->
  r rd = strings_at str i ->
  valid buf -> 0 < len buf ->
  tracks rd (firstn (Z.to_nat i) str) ->
  exists fuel rd',
    Copy_Discard fuel rd buf = Some (Returns rd') /\ tracks rd' str.
Proof.
  induction k as [| k IH]; intros i rd buf Hmax Hi Hk Hr Hv Hb Htr.
  - (* nothing left: the first read reports EOF *)
    assert (i = Z.of_nat (length str)) by lia. subst i.
    pose proof (io_Read_strings_at_end str _ buf (Z.le_refl _)) as E.
    rewrite <- Hr in E at 1.
    assert (Hn : 0 <= 0 <= cap {| arr := arr buf; len := len buf |})
      by (unfold cap; cbn [arr]; lia).
    exists 1%nat. eexists. cbn [Copy_Discard].
    rewrite (Read_eq rd buf _ _ _ _ E Hn). split; [reflexivity |].
    rewrite Nat2Z.id, firstn_all in Htr.
    pose proof (extends_Read 0 [] rd str
                  {| arr := arr buf; len := len buf |} 0
                  (strings_at str (Z.of_nat (length str)))
                  ltac:(unfold min_int64; lia) Hn Htr) as Hx.
    change (produced {| arr := arr buf; len := len buf |} 0)
      with (@nil byte) in Hx at 2 3.
    rewrite !(app_nil_r str) in Hx. apply Hx.
    change (produced {| arr := arr buf; len := len buf |} 0) with (@nil byte).
    rewrite app_nil_r. lia.
  - destruct (Z_le_dec (Z.of_nat (length str)) i) as [Hend | Hmore].
    + apply (IH i rd buf); try assumption. lia.
    + destruct (io_Read_strings_at_more str i buf ltac:(lia) Hv)
        as (p' & E & Hlen & Hcap & Hprod).
      set (n := Z.min (len buf) (Z.of_nat (length str) - i)) in *.
      rewrite <- Hr in E at 1.
      assert (Hn : 0 <= n <= cap p')
        by (unfold valid in Hv; subst n; lia).
      assert (Ed : firstn (Z.to_nat i) str ++ produced p' n
                   = firstn (Z.to_nat (i + n)) str).
      { rewrite Hprod, firstn_add_skipn. f_equal. lia. }
      destruct (IH (i + n)
                  {| r := strings_at str (i + n);
                     offs := wrap64 (offs rd + n);
                     lines := lines rd
                              ++ map wrap64
                                   (breaks_from (offs rd) (produced p' n)) |}
                  p')
        as (fuel & rd' & Hrun & Htr'); try assumption.
      * subst n. lia.
      * subst n. lia.
      * reflexivity.
      * unfold valid in *. lia.
      * lia.
      * rewrite <- Ed. apply extends_Read;
          [unfold min_int64; lia | exact Hn | exact Htr |].
        rewrite Ed, length_firstn. lia.
      * exists (S fuel), rd'. cbn [Copy_Discard].
        rewrite (Read_eq rd buf _ _ _ _ E Hn). split; assumption.
Qed.

(** X10.  [io.Copy(io.Discard, r)] over a [strings.Reader] of any string
    [str] shorter than [2^63] bytes comes to an end, and leaves the wrapper
    with [Size] equal to the length of [str], one recorded offset after
    each newline of [str], and [Position] answering every offset of [str]
    as [str] alone determines. *)
Theorem Copy_Discard_consumes_string (str : list byte) :
  Z.of_nat (length str) <= max_int64 ->
  exists fuel rd,
    Copy_Discard fuel (NewReader (strings_NewReader str)) discard_buffer
    = Some (Returns rd) /\
    Size rd = Z.of_nat (length str) /\
    lines rd = breaks_from 0 str /\
    forall o, 0 <= o < Z.of_nat (length str) ->
      Position rd o = Returns (position (breaks_from 0 str) o).
Proof.
  intros Hmax.
  destruct (Copy_Discard_strings str (length str) 0
              (NewReader (strings_NewReader str)) discard_buffer)
    as (fuel & rd & Hrun & Htr); try lia.
  - reflexivity.
  - apply valid_make. lia.
  - cbn. lia.
  - apply tracks_NewReader.
  - exists fuel, rd. split; [exact Hrun |].
    pose proof (tracks_Inv rd str Htr Hmax) as HI.
    pose proof HI as (_ & Hs & _).
    destruct Htr as [Eo El]. cbn [app] in El. unfold Size.
    split; [lia |]. split; [exact El |]. intros o Ho.
    rewrite Position_position, El;
      [reflexivity | exact Hs | apply Inv_positive; exact HI | lia].
Qed.

Lemma Copy_Discard_consumes_string_witness :
  Z.of_nat (length foo_bar_baz_nl) <= max_int64 /\
  exists fuel rd,
    Copy_Discard fuel (NewReader (strings_NewReader foo_bar_baz_nl))
      discard_buffer
    = Some (Returns rd) /\
    Size rd = Z.of_nat (length foo_bar_baz_nl) /\
    lines rd = breaks_from 0 foo_bar_baz_nl /\
    forall o, 0 <= o < Z.of_nat (length foo_bar_baz_nl) ->
      Position rd o = Returns (position (breaks_from 0 foo_bar_baz_nl) o).
Proof.
  assert (H : Z.of_nat (length foo_bar_baz_nl) <= max_int64)
    by (unfold max_int64; cbn; lia).
  split; [exact H |].
  apply (Copy_Discard_consumes_string foo_bar_baz_nl H).
Defined.

(** * Package stack *)

Module StackFacts.
Import Stack.

Section Facts.
Context {T : Type}.
Implicit Types (s : @Stack T) (v : T).

Lemma Pop_Push_eq s v : Pop (Push s v) = Returns (v, s).
Proof.
  unfold Pop, Push. rewrite length_app. cbn [length].
  replace (Z.of_nat (length s + 1) - 1) with (Z.of_nat (length s)) by lia.
  destruct (Z.leb_spec 0 (Z.of_nat (length s))); [| lia].
  rewrite Nat2Z.id, nth_error_app2, Nat.sub_diag by lia. cbn [nth_error].
  rewrite firstn_app, Nat.sub_diag, firstn_all, firstn_O, app_nil_r.
  reflexivity.
Qed.

Lemma Top_Push_eq s v : Top (Push s v) = Returns v.
Proof.
  unfold Top, Push. rewrite length_app. cbn [length].
  replace (Z.of_nat (length s + 1) - 1) with (Z.of_nat (length s)) by lia.
  destruct (Z.leb_spec 0 (Z.of_nat (length s))); [| lia].
  destruct (Z.ltb_spec (Z.of_nat (length s)) (Z.of_nat (length s + 1)));
    [| lia].
  cbn [andb].
  rewrite Nat2Z.id, nth_error_app2, Nat.sub_diag by lia. reflexivity.
Qed.

(** A stack is empty, or some stack with a value pushed on it. *)
Lemma Stack_cases s :
  (s = [] /\ Pop s = Panics "slice bounds out of range"
   /\ Top s = Panics "index out of range")
  \/ (exists s' v, s = Push s' v /\ Pop s = Returns (v, s')
                   /\ Top s = Returns v).
Proof.
  destruct s as [| a s0]; [left; repeat split |]. right.
  destruct (@exists_last _ (a :: s0) ltac:(discriminate)) as (s' & v & ->).
  exists s', v. split; [reflexivity |].
  split; [apply Pop_Push_eq | apply Top_Push_eq].
Qed.

(** X11.  Last in, first out: [Pop] returns [v] and leaves [s'] exactly
    when the stack was [s'] with [v] pushed on it; [Top] of a stack just
    pushed on is the pushed value, and [Push] raises [Len] by one. *)
Theorem Pop_undoes_Push s s' v :
  (Pop s = Returns (v, s') <-> s = Push s' v) /\
  Top (Push s v) = Returns v /\
  Len (Push s v) = Len s + 1.
Proof.
  split; [split |].
  - intros HP.
    destruct (Stack_cases s) as [(_ & E & _) | (s0 & v0 & -> & E & _)];
      rewrite E in HP; [discriminate |].
    injection HP as <- <-. reflexivity.
  - intros ->. apply Pop_Push_eq.
  - split; [apply Top_Push_eq |].
    unfold Len, Push. rewrite length_app. cbn [length]. lia.
Qed.

(** X12.  [Pop] and [Top] panic on an empty stack, and only then; on any
    other stack [Top] returns what [Pop] would return, [Pop] lowers [Len]
    by one, and [Top] changes nothing. *)
Theorem Pop_Top_panic_iff_empty s :
  (Len s = 0 <-> exists msg, Pop s = Panics msg) /\
  (Len s = 0 <-> exists msg, Top s = Panics msg) /\
  (Len s <> 0 ->
   exists v s', Pop s = Returns (v, s') /\ Top s = Returns v
                /\ Len s' = Len s - 1).
Proof.
  unfold Len.
  destruct (Stack_cases s) as [(-> & EP & ET) | (s0 & v0 & -> & EP & ET)].
  - repeat split; try (intros; eexists; eassumption); cbn; try lia;
      try reflexivity.
  - assert (Hl : Z.of_nat (length (Push s0 v0)) = Z.of_nat (length s0) + 1)
      by (unfold Push; rewrite length_app; cbn [length]; lia).
    rewrite EP, ET, Hl.
    repeat split; try lia; try (intros (msg & Hm); discriminate Hm).
    intros _. exists v0, s0. repeat split. lia.
Qed.

(** X13.  Values pushed in some order come back from as many pops in the
    reverse order, and the stack is then as it was before. *)
Theorem push_all_pop_all_reverses s (vs : list T) :
  pop_n (length vs) (push_all s vs) = Returns (rev vs, s).
Proof.
  revert s. induction vs as [| v vs IH] using rev_ind; intros s;
    [reflexivity |].
  unfold push_all in *. rewrite fold_left_app, length_app, rev_app_distr.
  cbn [fold_left length rev app].
  replace (length vs + 1)%nat with (S (length vs)) by lia.
  cbn [pop_n]. rewrite Pop_Push_eq, IH. reflexivity.
Qed.

End Facts.

End StackFacts.

(** * Package cmp *)

Module CmpFacts.
Import Cmp.

Lemma TotalOrdered_int : @TotalOrdered Z Ordered_int.
Proof.
  constructor; cbn [less equal Ordered_int].
  - intros x y. apply Z.eqb_eq.
  - intros x. apply Z.ltb_irrefl.
  - intros x y z Hxy Hyz. apply Z.ltb_lt in Hxy, Hyz. apply Z.ltb_lt. lia.
  - intros x y. rewrite !Z.ltb_lt. lia.
Qed.

Section Total.
Context {T : Type} `{TotalOrdered T}.

Lemma isNaN_false (x : T) : isNaN x = false.
Proof.
  unfold isNaN. replace (equal x x) with true; [reflexivity |].
  symmetry. apply equal_eq. reflexivity.
Qed.

Lemma less_asym (x y : T) : less x y = true -> less y x = false.
Proof.
  intros Hxy. destruct (less y x) eqn:Hyx; [| reflexivity].
  pose proof (less_trans x y x Hxy Hyx) as Hxx.
  rewrite less_irrefl in Hxx. discriminate.
Qed.

Lemma Compare_cases (x y : T) :
  (less x y = true /\ less y x = false /\ x <> y /\ Compare x y = -1)
  \/ (x = y /\ less x y = false /\ less y x = false /\ Compare x y = 0)
  \/ (less y x = true /\ less x y = false /\ x <> y /\ Compare x y = 1).
Proof.
  unfold Compare. rewrite !isNaN_false. cbn [andb orb].
  destruct (less_total x y) as [Hlt | [-> | Hgt]].
  - left. rewrite Hlt. repeat split; [apply less_asym; exact Hlt |].
    intros ->. rewrite less_irrefl in Hlt. discriminate.
  - right; left. rewrite less_irrefl. repeat split.
  - right; right. rewrite Hgt, (less_asym y x Hgt). repeat split.
    intros ->. rewrite less_irrefl in Hgt. discriminate.
Qed.

Lemma Compare_flip (x y : T) : Compare y x = - Compare x y.
Proof.
  destruct (Compare_cases x y)
    as [(L1 & L2 & Hne & E) | [(Heq & L1 & L2 & E) | (L1 & L2 & Hne & E)]];
    destruct (Compare_cases y x)
      as [(M1 & M2 & Hne' & E') | [(Heq' & M1 & M2 & E')
                                  | (M1 & M2 & Hne' & E')]];
    try congruence; rewrite E, E'; reflexivity.
Qed.

(** X14.  On a type where [<] is a strict total order and [==] is
    equality, [Compare] returns -1, 0 or 1; 0 exactly for equal arguments
    and -1 exactly when [x < y]; exchanging the arguments negates the
    result; and [Less], as well as the method [Less] of [Compare] taken
    as a comparator, is [x < y]. *)
Theorem Compare_total_order (x y : T) :
  (Compare x y = -1 \/ Compare x y = 0 \/ Compare x y = 1) /\
  (Compare x y = 0 <-> x = y) /\
  (Compare x y = -1 <-> less x y = true) /\
  Compare y x = - Compare x y /\
  Less x y = less x y /\
  Cmp_Less (Cmp_of Compare) x y = Returns (less x y).
Proof.
  unfold Less, Cmp_Less, Cmp_of. rewrite !isNaN_false. cbn [andb orb].
  destruct (Compare_cases x y)
    as [(L1 & L2 & Hne & E) | [(Heq & L1 & L2 & E) | (L1 & L2 & Hne & E)]];
    destruct (Compare_cases y x)
      as [(M1 & M2 & Hne' & E') | [(Heq' & M1 & M2 & E')
                                  | (M1 & M2 & Hne' & E')]];
    try congruence; rewrite E, E'; rewrite ?L1, ?L2;
    repeat split; try (intros; congruence); try lia; try reflexivity;
    intros; try discriminate; try lia.
Qed.

End Total.

Lemma Compare_total_order_witness :
  (@Compare Z _ 3 5 = -1 \/ @Compare Z _ 3 5 = 0 \/ @Compare Z _ 3 5 = 1) /\
  (@Compare Z _ 3 5 = 0 <-> 3 = 5) /\
  (@Compare Z _ 3 5 = -1 <-> less 3 5 = true) /\
  @Compare Z _ 5 3 = - @Compare Z _ 3 5 /\
  Less 3 5 = less 3 5 /\
  Cmp_Less (Cmp_of Compare) 3 5 = Returns (less 3 5).
Proof.
  exact (@Compare_total_order Z Ordered_int TotalOrdered_int 3 5).
Defined.

Section NaN.
Context {T : Type} `{Ordered T}.

(** X15.  On a type where every comparison with a NaN ([x != x]) is
    false, [Compare] and [Less] place a NaN before every other value and
    two NaNs on a par. *)
Theorem Compare_NaN_first (x y : T) :
  (forall a b, isNaN b = true -> less a b = false) ->
  isNaN x = true ->
  (isNaN y = true -> Compare x y = 0) /\
  (isNaN y = false ->
   Compare x y = -1 /\ Compare y x = 1 /\
   Less x y = true /\ Less y x = false).
Proof.
  intros Hlaw Hx. unfold Compare, Less. rewrite Hx. split; intros Hy;
    rewrite Hy; cbn [andb orb negb]; [reflexivity |].
  rewrite (Hlaw y x Hx). repeat split.
Qed.

End NaN.

Lemma Compare_NaN_first_witness :
  (forall a b : option Z, isNaN b = true -> less a b = false) /\
  isNaN (@None Z) = true /\
  (isNaN (Some 3) = true -> Compare None (Some 3) = 0) /\
  (isNaN (Some 3) = false ->
   Compare None (Some 3) = -1 /\ Compare (Some 3) None = 1 /\
   Less None (Some 3) = true /\ Less (Some 3) None = false).
Proof.
  assert (Hlaw : forall a b : option Z, isNaN b = true -> less a b = false).
  { intros a [b |] Hb; [| destruct a; reflexivity].
    unfold isNaN in Hb. cbn [equal Ordered_with_NaN] in Hb.
    rewrite Z.eqb_refl in Hb. discriminate. }
  split; [exact Hlaw |]. split; [reflexivity |].
  exact (@Compare_NaN_first (option Z) _ None (Some 3) Hlaw eq_refl).
Defined.

Section Chains.
Context {T : Type}.
Implicit Types (cmp : Cmp T) (cs : list (Cmp T)) (l r : T).

Lemma Chain_cons_Returns cmp cs l r c :
  cmp l r = Returns c ->
  Chain (cmp :: cs) l r
  = if c <? 0 then Returns (-1)
    else if 0 <? c then Returns 1 else Chain cs l r.
Proof. intros E. cbn [Chain]. rewrite E. reflexivity. Qed.

Lemma Chain_values cs l r c :
  Chain cs l r = Returns c -> c = -1 \/ c = 0 \/ c = 1.
Proof.
  induction cs as [| cmp cs IH]; cbn [Chain].
  - intros [= <-]. auto.
  - destruct (cmp l r) as [c0 | msg]; [| discriminate].
    destruct (c0 <? 0); [intros [= <-]; auto |].
    destruct (0 <? c0); [intros [= <-]; auto | exact IH].
Qed.

(** X16.  [Chain] returns -1, 0 or 1 whatever its comparators return, and
    0 exactly when every comparator returns 0; with no comparator at all
    it returns 0. *)
Theorem Chain_sign_and_zero cs l r :
  (forall c, Chain cs l r = Returns c -> c = -1 \/ c = 0 \/ c = 1) /\
  (Chain cs l r = Returns 0
   <-> Forall (fun cmp => cmp l r = Returns 0) cs) /\
  Chain [] l r = Returns 0.
Proof.
  split; [intros c; apply Chain_values |]. split; [| reflexivity].
  induction cs as [| cmp cs IH]; cbn [Chain].
  - split; [constructor | reflexivity].
  - destruct (cmp l r) as [c0 | msg] eqn:E.
    + destruct (Z.ltb_spec c0 0); [| destruct (Z.ltb_spec 0 c0)].
      * split; [discriminate | intros HF; inversion HF; subst].
        assert (c0 = 0) by congruence. lia.
      * split; [discriminate | intros HF; inversion HF; subst].
        assert (c0 = 0) by congruence. lia.
      * assert (c0 = 0) by lia. subst c0. rewrite IH. split.
        -- intros HF. constructor; assumption.
        -- intros HF. inversion HF; assumption.
    + split; [discriminate | intros HF; inversion HF; congruence].
Qed.

(** X17.  Chains nest: a chain of two lists of comparators one after the
    other is the chain of the two chains, panics included. *)
Theorem Chain_app cs1 cs2 l r :
  Chain (cs1 ++ cs2) l r = Chain [Chain cs1; Chain cs2] l r.
Proof.
  induction cs1 as [| cmp cs1 IH].
  - cbn [app Chain]. destruct (Chain cs2 l r) as [c | msg] eqn:E;
      [| reflexivity].
    destruct (Chain_values cs2 l r c E) as [-> | [-> | ->]]; reflexivity.
  - cbn [app]. cbn [Chain] in *.
    destruct (cmp l r) as [c0 | msg]; [| reflexivity].
    destruct (c0 <? 0); [reflexivity |].
    destruct (0 <? c0); [reflexivity |]. exact IH.
Qed.

Lemma Reverse_Chain cs l r :
  Reverse (Chain cs) l r = Chain (map Reverse cs) l r.
Proof.
  unfold Reverse. induction cs as [| cmp cs IH]; [reflexivity |].
  cbn [map Chain]. destruct (cmp r l) as [c0 | msg]; [| reflexivity].
  rewrite IH. reflexivity.
Qed.

(** Consequences of [ordering]. *)
Lemma ordering_strict cmp x y z c1 c2 c3 :
  ordering cmp ->
  cmp x y = Returns c1 -> cmp y z = Returns c2 -> cmp x z = Returns c3 ->
  c1 <= 0 -> c2 <= 0 -> c1 < 0 \/ c2 < 0 -> c3 < 0.
Proof.
  intros [Ht Hf Htr] E1 E2 E3 H1 H2 Hs.
  pose proof (Htr x y z c1 c2 c3 E1 E2 E3 H1 H2) as H3.
  destruct (Z.eq_dec c3 0) as [-> | Hne]; [| lia]. exfalso.
  destruct (Ht z x) as [c3' E3'].
  pose proof (Hf x z 0 c3' E3 E3') as F3. cbn in F3.
  assert (c3' = 0) by (destruct c3'; cbn in F3; lia). subst c3'.
  destruct Hs as [Hs | Hs].
  - destruct (Ht y x) as [c1' E1'].
    pose proof (Hf x y c1 c1' E1 E1') as F1.
    pose proof (Htr y z x c2 0 c1' E2 E3' E1' H2 ltac:(lia)).
    destruct c1, c1'; cbn in F1; lia.
  - destruct (Ht z y) as [c2' E2'].
    pose proof (Hf y z c2 c2' E2 E2') as F2.
    pose proof (Htr z x y 0 c1 c2' E3' E1 E2' ltac:(lia) H1).
    destruct c2, c2'; cbn in F2; lia.
Qed.

Lemma ordering_zero cmp x y z c3 :
  ordering cmp ->
  cmp x y = Returns 0 -> cmp y z = Returns 0 -> cmp x z = Returns c3 ->
  c3 = 0.
Proof.
  intros HO E1 E2 E3. pose proof HO as [Ht Hf Htr].
  pose proof (Htr x y z 0 0 c3 E1 E2 E3 ltac:(lia) ltac:(lia)) as H3.
  destruct (Ht y x) as [c1' E1']. destruct (Ht z y) as [c2' E2'].
  destruct (Ht z x) as [c3' E3'].
  pose proof (Hf x y 0 c1' E1 E1') as F1.
  pose proof (Hf y z 0 c2' E2 E2') as F2.
  pose proof (Hf x z c3 c3' E3 E3') as F3.
  assert (c1' = 0) by (destruct c1'; cbn in F1; lia).
  assert (c2' = 0) by (destruct c2'; cbn in F2; lia). subst.
  pose proof (Htr z y x 0 0 c3' E2' E1' E3' ltac:(lia) ltac:(lia)).
  destruct c3, c3'; cbn in F3; lia.
Qed.

(** X18.  A chain of comparators fit for sorting is fit for sorting: if
    no comparator of the chain panics, each flips its sign when its
    arguments are exchanged and each has a transitive "not greater", then
    the same holds of their [Chain]. *)
Theorem Chain_ordering cs :
  Forall ordering cs -> ordering (Chain cs).
Proof.
  induction 1 as [| cmp cs HO _ IH].
  - constructor.
    + intros a b. exists 0. reflexivity.
    + intros a b c c' [= <-] [= <-]. reflexivity.
    + intros x y z c1 c2 c3 _ _ [= <-] _ _. lia.
  - pose proof HO as [Ht Hf Htr]. destruct IH as [It If Itr]. constructor.
    + intros a b. destruct (Ht a b) as [c E].
      rewrite (Chain_cons_Returns _ _ _ _ _ E).
      destruct (c <? 0); [eexists; reflexivity |].
      destruct (0 <? c); [eexists; reflexivity | apply It].
    + intros a b c c'. destruct (Ht a b) as [c0 E], (Ht b a) as [c0' E'].
      rewrite (Chain_cons_Returns _ _ _ _ _ E),
        (Chain_cons_Returns _ _ _ _ _ E').
      pose proof (Hf a b c0 c0' E E') as F.
      destruct (Z.ltb_spec c0 0), (Z.ltb_spec 0 c0),
        (Z.ltb_spec c0' 0), (Z.ltb_spec 0 c0');
        try (destruct c0, c0'; cbn in F; lia);
        try (intros [= <-] [= <-]; reflexivity).
      apply If.
    + intros x y z c1 c2 c3.
      destruct (Ht x y) as [d1 E1], (Ht y z) as [d2 E2], (Ht x z) as [d3 E3].
      rewrite (Chain_cons_Returns _ _ _ _ _ E1),
        (Chain_cons_Returns _ _ _ _ _ E2),
        (Chain_cons_Returns _ _ _ _ _ E3).
      destruct (Z.ltb_spec d1 0) as [L1 | L1];
        [| destruct (Z.ltb_spec 0 d1) as [G1 | G1];
           [intros [= <-]; lia |]];
        (destruct (Z.ltb_spec d2 0) as [L2 | L2];
         [| destruct (Z.ltb_spec 0 d2) as [G2 | G2];
            [intros ? [= <-]; lia |]]).
      * pose proof (ordering_strict cmp x y z d1 d2 d3 HO E1 E2 E3
                      ltac:(lia) ltac:(lia) ltac:(lia)) as S3.
        destruct (Z.ltb_spec d3 0); [intros _ _ [= <-]; lia | lia].
      * pose proof (ordering_strict cmp x y z d1 d2 d3 HO E1 E2 E3
                      ltac:(lia) ltac:(lia) ltac:(lia)) as S3.
        destruct (Z.ltb_spec d3 0); [intros _ _ [= <-]; lia | lia].
      * pose proof (ordering_strict cmp x y z d1 d2 d3 HO E1 E2 E3
                      ltac:(lia) ltac:(lia) ltac:(lia)) as S3.
        destruct (Z.ltb_spec d3 0); [intros _ _ [= <-]; lia | lia].
      * assert (d1 = 0) by lia. assert (d2 = 0) by lia. subst d1 d2.
        pose proof (ordering_zero cmp x y z d3 HO E1 E2 E3). subst d3.
        cbn [Z.ltb Z.compare]. apply Itr.
Qed.

End Chains.

Lemma Reverse_ordering {A : Type} (cmp : Cmp A) :
  ordering cmp -> ordering (Reverse cmp).
Proof.
  intros HO. pose proof HO as [Ht Hf Htr]. unfold Reverse. constructor.
  - intros a b. apply Ht.
  - intros a b c c' E E'. exact (Hf b a c c' E E').
  - intros x y z c1 c2 c3 E1 E2 E3 H1 H2.
    exact (Htr z y x c2 c1 c3 E2 E1 E3 H2 H1).
Qed.

Section Orderings.
Context {T : Type} `{TotalOrdered T}.

Lemma Compare_ordering : ordering (Cmp_of (@Compare T _)).
Proof.
  unfold Cmp_of. constructor.
  - intros a b. eexists; reflexivity.
  - intros a b c c' [= <-] [= <-].
    rewrite Compare_flip, Z.sgn_opp. reflexivity.
  - intros x y z c1 c2 c3 [= <-] [= <-] [= <-] H1 H2.
    destruct (Compare_cases x z)
      as [(_ & _ & _ & E3) | [(_ & _ & _ & E3) | (L3 & G3 & N3 & E3)]];
      try lia. exfalso.
    destruct (Compare_cases x y)
      as [(L1 & _ & _ & E1) | [(Q1 & _ & _ & E1) | (_ & _ & _ & E1)]];
      destruct (Compare_cases y z)
        as [(L2 & _ & _ & E2) | [(Q2 & _ & _ & E2) | (_ & _ & _ & E2)]];
      try lia.
    + pose proof (less_trans _ _ _ L1 L2). congruence.
    + congruence.
    + congruence.
    + congruence.
Qed.

Lemma By_ordering {C : Type} (by_ : C -> T) : ordering (By by_).
Proof.
  pose proof Compare_ordering as [Ht Hf Htr]. unfold By, ByFunc.
  constructor.
  - intros a b. apply Ht.
  - intros a b. apply Hf.
  - intros x y z. apply Htr.
Qed.

(** X19.  On a type where [<] is a strict total order, [By] some field
    is a comparator fit for sorting, and so is the [Reverse] of any
    comparator fit for sorting; [Reverse] answers with the opposite sign,
    and the reverse of a chain is the chain of the reverses. *)
Theorem By_Reverse_ordering {C : Type} (by_ : C -> T)
  (cmp : Cmp C) (cs : list (Cmp C)) (l r : C) :
  ordering (By by_) /\
  (ordering cmp ->
   ordering (Reverse cmp) /\
   exists c c', cmp l r = Returns c /\ Reverse cmp l r = Returns c'
                /\ Z.sgn c' = - Z.sgn c) /\
  Reverse (Chain cs) l r = Chain (map Reverse cs) l r.
Proof.
  split; [| split].
  - apply By_ordering.
  - intros HO. split; [apply Reverse_ordering; exact HO |].
    pose proof HO as [Ht Hf _].
    destruct (Ht l r) as [c E], (Ht r l) as [c' E'].
    exists c, c'. repeat split; try assumption. exact (Hf l r c c' E E').
  - apply Reverse_Chain.
Qed.

End Orderings.

(** Sorting pairs by the first component and then, descending, by the
    second, as the package's example sorts people by name and age. *)
Lemma Chain_ordering_witness :
  Forall ordering [By (@fst Z Z); Reverse (By (@snd Z Z))] /\
  ordering (Chain [By (@fst Z Z); Reverse (By (@snd Z Z))]).
Proof.
  assert (HB : forall f : Z * Z -> Z, ordering (By f)).
  { intros f. exact (@By_ordering Z Ordered_int TotalOrdered_int _ f). }
  assert (HF : Forall ordering [By (@fst Z Z); Reverse (By (@snd Z Z))]).
  { constructor; [apply HB |].
    constructor; [apply Reverse_ordering, HB | constructor]. }
  split; [exact HF |].
  exact (Chain_ordering [By (@fst Z Z); Reverse (By (@snd Z Z))] HF).
Defined.

Lemma By_Reverse_ordering_witness :
  ordering (By (@fst Z Z)) /\
  (ordering (By (@snd Z Z)) ->
   ordering (Reverse (By (@snd Z Z))) /\
   exists c c',
     By (@snd Z Z) (1, 2) (1, 3) = Returns c
     /\ Reverse (By (@snd Z Z)) (1, 2) (1, 3) = Returns c'
     /\ Z.sgn c' = - Z.sgn c) /\
  Reverse (Chain [By (@fst Z Z)]) (1, 2) (1, 3)
  = Chain (map Reverse [By (@fst Z Z)]) (1, 2) (1, 3).
Proof.
  pose proof (@By_Reverse_ordering Z Ordered_int TotalOrdered_int
                (Z * Z) (@fst Z Z) (By (@snd Z Z)) [By (@fst Z Z)]
                (1, 2) (1, 3)) as (H1 & H2 & H3).
  split; [exact H1 |]. split; [exact H2 | exact H3].
Defined.

(** ** Slices and pointers *)

Lemma Compare_int (x y : Z) :
  @Compare Z _ x y = if x <? y then -1 else if y <? x then 1 else 0.
Proof.
  unfold Compare, isNaN. cbn [less equal Ordered_int].
  rewrite !Z.eqb_refl. cbn [negb andb orb]. reflexivity.
Qed.

Lemma at_index_app {T : Type} (pre : list T) a rest :
  at_index (pre ++ a :: rest) (Z.of_nat (length pre)) = Returns a.
Proof.
  unfold at_index. rewrite length_app. cbn [length].
  destruct (Z.leb_spec 0 (Z.of_nat (length pre))); [| lia].
  destruct (Z.ltb_spec (Z.of_nat (length pre))
              (Z.of_nat (length pre + S (length rest)))); [| lia].
  cbn [andb]. rewrite Nat2Z.id, nth_error_app2, Nat.sub_diag by lia.
  reflexivity.
Qed.

Lemma SliceFunc_loop_first {T : Type} (f : T -> T -> Z) (l' : list T) :
  forall r' pre_l pre_r,
    length pre_l = length pre_r ->
    SliceFunc_loop (Cmp_of f) (pre_l ++ l') (pre_r ++ r')
      (Nat.min (length l') (length r')) (Z.of_nat (length pre_l))
    = Returns (first_difference f l' r').
Proof.
  induction l' as [| a l' IH]; intros r' pre_l pre_r Hpre; [reflexivity |].
  destruct r' as [| b r']; [reflexivity |].
  cbn [length Nat.min SliceFunc_loop first_difference].
  rewrite at_index_app. rewrite Hpre at 1. rewrite at_index_app.
  unfold Cmp_of at 1.
  destruct (Z.eqb_spec (f a b) 0) as [E | E]; cbn [negb]; [| reflexivity].
  specialize (IH r' (pre_l ++ [a]) (pre_r ++ [b])).
  rewrite <- !app_assoc in IH. cbn [app] in IH.
  rewrite !length_app in IH. cbn [length] in IH.
  replace (Z.of_nat (length pre_l + 1))
    with (Z.of_nat (length pre_l) + 1) in IH by lia.
  apply IH. lia.
Qed.

Lemma lex_first_difference {T : Type} (f : T -> T -> Z) (l : list T) :
  forall r,
    lex f l r
    = match first_difference f l r with
      | Some c => c
      | None => Compare (Z.of_nat (length l)) (Z.of_nat (length r))
      end.
Proof.
  induction l as [| a l IH]; intros [| b r];
    cbn [lex first_difference length]; rewrite ?Compare_int.
  - reflexivity.
  - destruct (Z.ltb_spec (Z.of_nat 0) (Z.of_nat (S (length r))));
      [reflexivity | lia].
  - destruct (Z.ltb_spec (Z.of_nat (S (length l))) (Z.of_nat 0)); [lia |].
    destruct (Z.ltb_spec (Z.of_nat 0) (Z.of_nat (S (length l))));
      [reflexivity | lia].
  - destruct (Z.eqb_spec (f a b) 0); [| reflexivity].
    rewrite IH. destruct (first_difference f l r); [reflexivity |].
    rewrite !Compare_int, !Nat2Z.inj_succ.
    destruct (Z.ltb_spec (Z.of_nat (length l)) (Z.of_nat (length r))),
      (Z.ltb_spec (Z.succ (Z.of_nat (length l))) (Z.succ (Z.of_nat (length r))));
      try lia; try reflexivity.
    destruct (Z.ltb_spec (Z.of_nat (length r)) (Z.of_nat (length l))),
      (Z.ltb_spec (Z.succ (Z.of_nat (length r))) (Z.succ (Z.of_nat (length l))));
      try lia; reflexivity.
Qed.

Lemma SliceFunc_lex {T : Type} (f : T -> T -> Z) (l r : list T) :
  SliceFunc (Cmp_of f) l r = Returns (lex f l r).
Proof.
  unfold SliceFunc.
  replace (Z.to_nat (Z.min (Z.of_nat (length l)) (Z.of_nat (length r))))
    with (Nat.min (length l) (length r)) by lia.
  pose proof (SliceFunc_loop_first f l r [] [] eq_refl) as HL.
  change (SliceFunc_loop (Cmp_of f) l r
            (Nat.min (length l) (length r)) 0
          = Returns (first_difference f l r)) in HL.
  rewrite HL, lex_first_difference.
  destruct (first_difference f l r); reflexivity.
Qed.

Section Slices.
Context {T : Type} `{Ordered T}.

Lemma Slice_loop_eq (l r : list T) count : forall i,
  Slice_loop l r count i = SliceFunc_loop (Cmp_of Compare) l r count i.
Proof.
  induction count as [| count IH]; intros i; [reflexivity |].
  cbn [Slice_loop SliceFunc_loop].
  destruct (at_index l i); [| reflexivity].
  destruct (at_index r i); [| reflexivity].
  unfold Cmp_of at 1. rewrite IH. reflexivity.
Qed.

(** X20.  [Slice], and [SliceFunc] with a comparator that does not panic,
    never index out of range and compare lexicographically: they return
    the first non-zero comparison of two elements at the same index, and
    the comparison of the lengths when there is none. *)
Theorem Slice_is_lexicographic (f : T -> T -> Z) (l r : list T) :
  Slice l r = Returns (lex Compare l r) /\
  SliceFunc (Cmp_of f) l r = Returns (lex f l r).
Proof.
  split; [| apply SliceFunc_lex].
  rewrite <- SliceFunc_lex. unfold Slice, SliceFunc.
  rewrite Slice_loop_eq.
  replace (if Z.of_nat (length r) <? Z.of_nat (length l)
           then Z.of_nat (length r) else Z.of_nat (length l))
    with (Z.min (Z.of_nat (length l)) (Z.of_nat (length r)));
    [reflexivity |].
  destruct (Z.ltb_spec (Z.of_nat (length r)) (Z.of_nat (length l))); lia.
Qed.

End Slices.

Section TotalSlices.
Context {T : Type} `{TotalOrdered T}.

Lemma lex_Compare_zero (l : list T) : forall r,
  lex Compare l r = 0 <-> l = r.
Proof.
  induction l as [| a l IH]; intros [| b r]; cbn [lex];
    try (split; [lia | discriminate]); [split; reflexivity |].
  destruct (Compare_cases a b)
    as [(_ & _ & Hne & E) | [(Heq & _ & _ & E) | (_ & _ & Hne & E)]];
    rewrite E; cbn [Z.eqb].
  - split; [lia | intros [= ? ?]; contradiction].
  - rewrite IH. split; [intros ->; congruence | intros [= _ ?]; assumption].
  - split; [lia | intros [= ? ?]; contradiction].
Qed.

Lemma lex_Compare_flip (l : list T) : forall r,
  lex Compare r l = - lex Compare l r.
Proof.
  induction l as [| a l IH]; intros [| b r]; cbn [lex]; try reflexivity.
  rewrite (Compare_flip a b).
  destruct (Compare_cases a b)
    as [(_ & _ & _ & E) | [(_ & _ & _ & E) | (_ & _ & _ & E)]];
    rewrite E; cbn [Z.eqb Z.opp]; [reflexivity | apply IH | reflexivity].
Qed.

Lemma lex_Compare_values (l : list T) : forall r,
  lex Compare l r = -1 \/ lex Compare l r = 0 \/ lex Compare l r = 1.
Proof.
  induction l as [| a l IH]; intros [| b r]; cbn [lex]; auto.
  destruct (Compare_cases a b)
    as [(_ & _ & _ & E) | [(_ & _ & _ & E) | (_ & _ & _ & E)]];
    rewrite E; cbn [Z.eqb]; auto.
Qed.

(** X21.  On a type where [<] is a strict total order, [Slice] returns
    -1, 0 or 1, returns 0 exactly for equal slices, negates its result
    when its arguments are exchanged, and puts a slice before every
    proper extension of it. *)
Theorem Slice_total_order (l r : list T) :
  exists c,
    Slice l r = Returns c /\
    (c = -1 \/ c = 0 \/ c = 1) /\
    (c = 0 <-> l = r) /\
    Slice r l = Returns (- c) /\
    (forall ext, ext <> [] -> Slice l (l ++ ext) = Returns (-1)).
Proof.
  assert (HS : forall a b : list T, Slice a b = Returns (lex Compare a b)).
  { intros a b. rewrite <- SliceFunc_lex. unfold Slice, SliceFunc.
    rewrite Slice_loop_eq.
    replace (if Z.of_nat (length b) <? Z.of_nat (length a)
             then Z.of_nat (length b) else Z.of_nat (length a))
      with (Z.min (Z.of_nat (length a)) (Z.of_nat (length b)));
      [reflexivity |].
    destruct (Z.ltb_spec (Z.of_nat (length b)) (Z.of_nat (length a))); lia. }
  exists (lex Compare l r). rewrite !HS.
  split; [reflexivity |]. split; [apply lex_Compare_values |].
  split; [apply lex_Compare_zero |].
  split; [rewrite lex_Compare_flip; reflexivity |].
  intros ext Hext. rewrite HS. f_equal.
  clear HS. induction l as [| a l IH]; cbn [app lex].
  - destruct ext; [contradiction | reflexivity].
  - destruct (Compare_cases a a)
      as [(_ & _ & Hne & _) | [(_ & _ & _ & E) | (_ & _ & Hne & _)]];
      try contradiction.
    rewrite E. cbn [Z.eqb]. exact IH.
Qed.

End TotalSlices.

Lemma Slice_total_order_witness :
  exists c,
    @Slice Z _ [1; 2] [1; 3] = Returns c /\
    (c = -1 \/ c = 0 \/ c = 1) /\
    (c = 0 <-> [1; 2] = [1; 3]) /\
    @Slice Z _ [1; 3] [1; 2] = Returns (- c) /\
    (forall ext, ext <> [] -> @Slice Z _ [1; 2] ([1; 2] ++ ext) = Returns (-1)).
Proof.
  exact (@Slice_total_order Z Ordered_int TotalOrdered_int [1; 2] [1; 3]).
Defined.

Section Pointers.
Context {T : Type}.

(** X22.  [ByPointerFunc] keeps nil pointers away from its comparator: if
    the comparator returns on every two non-nil pointers (it may panic on
    nil, as one made by [Deref] does), then [ByPointerFunc] returns, with
    0 for two nil pointers, -1 for nil against non-nil, 1 for non-nil
    against nil, and the comparator's answer otherwise. *)
Theorem ByPointerFunc_guards_nil {C : Type}
  (by_ : C -> option T) (cmp : Cmp (option T)) (l r : C) :
  (forall a b, exists c, cmp (Some a) (Some b) = Returns c) ->
  exists c,
    ByPointerFunc by_ cmp l r = Returns c /\
    (by_ l = None -> by_ r = None -> c = 0) /\
    (by_ l = None -> by_ r <> None -> c = -1) /\
    (by_ l <> None -> by_ r = None -> c = 1) /\
    (by_ l <> None -> by_ r <> None -> cmp (by_ l) (by_ r) = Returns c).
Proof.
  intros Hcmp. unfold ByPointerFunc.
  destruct (by_ l) as [a |], (by_ r) as [b |].
  - destruct (Hcmp a b) as [c E]. exists c. rewrite E.
    repeat split; congruence.
  - exists 1. repeat split; congruence.
  - exists (-1). repeat split; congruence.
  - exists 0. repeat split; congruence.
Qed.

Context `{Ordered T}.

(** X23.  [Pointer] and [ByPointer] never dereference a nil pointer: they
    return for all arguments, with all nil pointers equal and before
    every non-nil pointer and two non-nil pointers compared by [Compare]
    on what they point to, whereas the comparator [Deref] makes panics as
    soon as one of its arguments is nil. *)
Theorem Pointer_nil_first {C : Type} (by_ : C -> option T)
  (l r : option T) (x y : C) (cmp : Cmp T) :
  Pointer l r
  = Returns (match l, r with
             | None, None => 0
             | None, Some _ => -1
             | Some _, None => 1
             | Some a, Some b => Compare a b
             end) /\
  ByPointer by_ x y = Pointer (by_ x) (by_ y) /\
  Deref cmp None r = Panics "nil pointer dereference" /\
  Deref cmp l None = Panics "nil pointer dereference".
Proof.
  unfold ByPointer, Pointer, PointerFunc, ByPointerFunc, id, Deref, Cmp_of.
  repeat split; destruct l, r; try reflexivity.
Qed.

End Pointers.

Lemma ByPointerFunc_guards_nil_witness :
  (forall a b : Z, exists c,
      Deref (Cmp_of Compare) (Some a) (Some b) = Returns c) /\
  exists c,
    ByPointerFunc id (Deref (Cmp_of Compare)) (@None Z) (Some 7)
    = Returns c /\
    (id (@None Z) = None -> id (Some 7) = None -> c = 0) /\
    (id (@None Z) = None -> id (Some 7) <> None -> c = -1) /\
    (id (@None Z) <> None -> id (Some 7) = None -> c = 1) /\
    (id (@None Z) <> None -> id (Some 7) <> None ->
     Deref (Cmp_of Compare) (id None) (id (Some 7)) = Returns c).
Proof.
  assert (Hc : forall a b : Z, exists c,
               Deref (Cmp_of Compare) (Some a) (Some b) = Returns c)
    by (intros a b; eexists; reflexivity).
  split; [exact Hc |].
  exact (ByPointerFunc_guards_nil id (Deref (Cmp_of Compare))
           (@None Z) (Some 7) Hc).
Defined.

End CmpFacts.

(** * Package set *)

Module SetsFacts.
Import Sets.

Lemma ComparableLaws_with_NaN : @ComparableLaws (option Z) Comparable_with_NaN.
Proof.
  constructor; cbn [equal Comparable_with_NaN].
  - intros [a |] [b |]; try reflexivity. apply Z.eqb_sym.
  - intros [a |] [b |] [c |]; try discriminate.
    rewrite !Z.eqb_eq. congruence.
Qed.

Lemma ComparableLaws_int : @ComparableLaws Z Comparable_int.
Proof.
  constructor; cbn [equal Comparable_int].
  - apply Z.eqb_sym.
  - intros x y z. rewrite !Z.eqb_eq. congruence.
Qed.

Lemma rev_visits_each_entry_once {A : Type} (m : list A) :
  Permutation (rev m) m.
Proof. apply Permutation_sym, Permutation_rev. Qed.

Lemma rotate_visits_each_entry_once {A : Type} (m : list A) :
  Permutation (rotate m) m.
Proof.
  destruct m as [| a m]; [constructor |]. cbn [rotate].
  apply Permutation_sym, Permutation_cons_append.
Qed.

Section Facts.
Context {E : Type} `{ComparableLaws E}.

Implicit Types (s t : @Set_ E) (m vs : list E) (v x k : E).

Lemma equal_left_refl x y : equal x y = true -> equal x x = true.
Proof.
  intros Hxy. apply (equal_trans x y x Hxy).
  rewrite equal_sym. exact Hxy.
Qed.

Lemma equal_right_refl x y : equal x y = true -> equal y y = true.
Proof.
  intros Hxy. apply (equal_left_refl y x). rewrite equal_sym. exact Hxy.
Qed.

(** Equal keys are equal to the same keys. *)
Lemma equal_congr x y z : equal x y = true -> equal x z = equal y z.
Proof.
  intros Hxy. destruct (equal y z) eqn:Hyz.
  - exact (equal_trans x y z Hxy Hyz).
  - destruct (equal x z) eqn:Hxz; [| reflexivity].
    rewrite <- Hyz. symmetry. apply (equal_trans y x z); [| exact Hxz].
    rewrite equal_sym. exact Hxy.
Qed.

Lemma existsb_Permutation {A : Type} (f : A -> bool) (l l' : list A) :
  Permutation l l' -> existsb f l = existsb f l'.
Proof.
  induction 1 as [| a l l' _ IH | a b l | l l' l'' _ IH1 _ IH2];
    cbn [existsb].
  - reflexivity.
  - rewrite IH. reflexivity.
  - destruct (f a), (f b); reflexivity.
  - congruence.
Qed.

Lemma filter_Permutation {A : Type} (f : A -> bool) (l l' : list A) :
  Permutation l l' -> Permutation (filter f l) (filter f l').
Proof.
  induction 1 as [| a l l' _ IH | a b l | l l' l'' _ IH1 _ IH2];
    cbn [filter].
  - constructor.
  - destruct (f a); [constructor |]; exact IH.
  - destruct (f a), (f b); try reflexivity. constructor.
  - etransitivity; eassumption.
Qed.

(** *** One assignment *)

Lemma assign_nil v : exists msg, assign None v = Panics msg.
Proof. eexists; reflexivity. Qed.

Lemma assign_Some m v :
  exists m',
    assign (Some m) v = Returns (Some m') /\
    (forall x, lookup (Some m') x = lookup (Some m) x || equal v x) /\
    unequal_to_self m' = unequal_to_self m ++ unequal_to_self [v] /\
    length m' = (length m + if lookup (Some m) v then 0 else 1)%nat.
Proof.
  unfold assign, lookup, entries.
  destruct (existsb (fun k => equal k v) m) eqn:Ev.
  - eexists. split; [reflexivity |].
    apply existsb_exists in Ev as (k0 & Hk0 & Ek0).
    pose proof (equal_right_refl _ _ Ek0) as Hvv.
    split; [| split].
    + intros x. apply eq_iff_eq_true.
      rewrite orb_true_iff, !existsb_exists. split.
      * intros (y & Hy & Eyx). apply in_map_iff in Hy as (k & <- & Hk).
        destruct (equal k v); [right; exact Eyx | left; exists k; auto].
      * intros [(k & Hk & Ekx) | Evx].
        -- exists (if equal k v then v else k). split.
           ++ apply in_map_iff. exists k. auto.
           ++ destruct (equal k v) eqn:Ekv; [| exact Ekx].
              rewrite <- (equal_congr k v x Ekv). exact Ekx.
        -- exists v. split; [| exact Evx].
           apply in_map_iff. exists k0. rewrite Ek0. auto.
    + unfold unequal_to_self. cbn [filter]. rewrite Hvv. cbn [negb].
      rewrite app_nil_r. clear k0 Hk0 Ek0.
      induction m as [| k m IH]; [reflexivity |]. cbn [map filter].
      destruct (equal k v) eqn:Ekv.
      * rewrite Hvv, (equal_left_refl _ _ Ekv). cbn [negb]. exact IH.
      * destruct (negb (equal k k)); rewrite IH; reflexivity.
    + rewrite length_map. lia.
  - eexists. split; [reflexivity |]. split; [| split].
    + intros x. rewrite existsb_app. cbn [existsb].
      rewrite orb_false_r. reflexivity.
    + unfold unequal_to_self. apply filter_app.
    + rewrite length_app. reflexivity.
Qed.

(** *** The loops that add *)

Lemma unequal_to_self_cons v vs :
  unequal_to_self (v :: vs) = unequal_to_self [v] ++ unequal_to_self vs.
Proof. unfold unequal_to_self. apply (filter_app _ [v] vs). Qed.

Lemma add_each_if_Some (p : E -> bool) vs : forall m,
  exists m',
    add_each_if p (Some m) vs = Returns (Some m') /\
    (forall x, lookup (Some m') x
               = lookup (Some m) x
                 || existsb (fun v => equal v x) (filter p vs)) /\
    unequal_to_self m'
    = unequal_to_self m ++ unequal_to_self (filter p vs) /\
    (length m' <= length m + length (filter p vs))%nat.
Proof.
  induction vs as [| v vs IH]; intros m.
  - exists m. cbn [add_each_if filter existsb length].
    split; [reflexivity |]. split; [intros x; rewrite orb_false_r; reflexivity |].
    split; [rewrite app_nil_r; reflexivity | lia].
  - cbn [add_each_if filter]. destruct (p v); [| apply IH].
    unfold Add. destruct (assign_Some m v) as (m1 & E1 & L1 & N1 & S1).
    rewrite E1. destruct (IH m1) as (m' & E' & L' & N' & S').
    exists m'. split; [exact E' |]. split; [| split].
    + intros x. rewrite L', L1. cbn [existsb]. rewrite orb_assoc. reflexivity.
    + rewrite N', N1, (unequal_to_self_cons v (filter p vs)), app_assoc.
      reflexivity.
    + cbn [length]. destruct (lookup (Some m) v); lia.
Qed.


Lemma existsb_filter {A : Type} (p f : A -> bool) (l : list A) :
  existsb f (filter p l) = existsb (fun a => p a && f a) l.
Proof.
  induction l as [| a l IH]; [reflexivity |]. cbn [filter existsb].
  destruct (p a); cbn [existsb andb]; rewrite IH; reflexivity.
Qed.

Lemma filter_true {A : Type} (l : list A) : filter (fun _ => true) l = l.
Proof. induction l as [| a l IH]; [reflexivity |]. cbn. rewrite IH. reflexivity. Qed.

(** A key found in a map is found under every key equal to it. *)
Lemma lookup_congr s x y : equal x y = true -> lookup s x = lookup s y.
Proof.
  intros Hxy. unfold lookup. apply eq_iff_eq_true.
  rewrite !existsb_exists. split; intros (k & Hk & Ek); exists k;
    (split; [exact Hk |]).
  - exact (equal_trans k x y Ek Hxy).
  - apply (equal_trans k y x Ek). rewrite equal_sym. exact Hxy.
Qed.

(** A key unequal to itself is found in no map. *)
Lemma lookup_unequal_to_self s x : equal x x = false -> lookup s x = false.
Proof.
  intros Hx. unfold lookup. apply not_true_is_false. intros Hl.
  apply existsb_exists in Hl as (k & _ & Ek).
  rewrite (equal_right_refl _ _ Ek) in Hx. discriminate.
Qed.

(** Which keys pass a test that respects [==], among those of a map. *)
Lemma existsb_test s (p : E -> bool) x :
  (forall a b, equal a b = true -> p a = p b) ->
  existsb (fun v => p v && equal v x) (entries s) = lookup s x && p x.
Proof.
  intros Hp. unfold lookup. apply eq_iff_eq_true.
  rewrite andb_true_iff, !existsb_exists. split.
  - intros (k & Hk & Ek). apply andb_true_iff in Ek as [Pk Ek].
    split; [exists k; auto |]. rewrite <- (Hp k x Ek). exact Pk.
  - intros [(k & Hk & Ek) Px]. exists k. split; [exact Hk |].
    rewrite (Hp k x Ek), Px, Ek. reflexivity.
Qed.

Lemma unequal_to_self_filter (p : E -> bool) vs :
  unequal_to_self (filter p vs)
  = filter (fun v => p v) (unequal_to_self vs).
Proof.
  unfold unequal_to_self. induction vs as [| v vs IH]; [reflexivity |].
  cbn [filter]. destruct (p v) eqn:Pv, (negb (equal v v)) eqn:Nv;
    cbn [filter]; rewrite ?Pv, ?Nv, IH; reflexivity.
Qed.

Lemma filter_all {A : Type} (p : A -> bool) (l : list A) :
  (forall a, In a l -> p a = true) -> filter p l = l.
Proof.
  induction l as [| a l IH]; intros Hp; [reflexivity |]. cbn [filter].
  rewrite (Hp a (or_introl eq_refl)), IH; [reflexivity |].
  intros b Hb. apply Hp. right. exact Hb.
Qed.

Lemma filter_none {A : Type} (p : A -> bool) (l : list A) :
  (forall a, In a l -> p a = false) -> filter p l = [].
Proof.
  induction l as [| a l IH]; intros Hp; [reflexivity |]. cbn [filter].
  rewrite (Hp a (or_introl eq_refl)). apply IH.
  intros b Hb. apply Hp. right. exact Hb.
Qed.

Lemma In_unequal_to_self v vs :
  In v (unequal_to_self vs) -> equal v v = false.
Proof.
  unfold unequal_to_self. intros Hv. apply filter_In in Hv as [_ Hv].
  apply negb_true_iff. exact Hv.
Qed.

Section Ranges.
Variable order : list E -> list E.
Variable order2 : list E -> list E.
Hypothesis order_visits_each_entry_once :
  forall m, Permutation (order m) m.
Hypothesis order2_visits_each_entry_once :
  forall m, Permutation (order2 m) m.

Lemma range_Permutation s : Permutation (range order s) (entries s).
Proof. apply order_visits_each_entry_once. Qed.

Lemma range2_Permutation s : Permutation (range2 order2 s) (entries s).
Proof. apply order2_visits_each_entry_once. Qed.

(** The set of the keys of [s] that pass a test respecting [==]: what
    [Intersect], [Difference] and [SymmetricDifference] build. *)
Lemma add_visited s vs (p : E -> bool) m :
  Permutation vs (entries s) ->
  (forall a b, equal a b = true -> p a = p b) ->
  exists m',
    add_each_if p (Some m) vs = Returns (Some m') /\
    (forall x, lookup (Some m') x = lookup (Some m) x || lookup s x && p x) /\
    Permutation (unequal_to_self m')
      (unequal_to_self m
       ++ filter (fun v => p v) (unequal_to_self (entries s))).
Proof.
  intros Hvs Hp.
  destruct (add_each_if_Some p vs m) as (m' & E' & L' & N' & _).
  exists m'. split; [exact E' |]. split.
  - intros x. rewrite L', existsb_filter.
    rewrite (existsb_Permutation _ _ _ Hvs).
    rewrite existsb_test by exact Hp. reflexivity.
  - rewrite N', unequal_to_self_filter. apply Permutation_app_head.
    apply filter_Permutation. unfold unequal_to_self.
    apply filter_Permutation. exact Hvs.
Qed.

Lemma add_filtered s (p : E -> bool) m :
  (forall a b, equal a b = true -> p a = p b) ->
  exists m',
    add_each_if p (Some m) (range order s) = Returns (Some m') /\
    (forall x, lookup (Some m') x = lookup (Some m) x || lookup s x && p x) /\
    Permutation (unequal_to_self m')
      (unequal_to_self m
       ++ filter (fun v => p v) (unequal_to_self (entries s))).
Proof. apply add_visited, range_Permutation. Qed.

Lemma add_filtered2 s (p : E -> bool) m :
  (forall a b, equal a b = true -> p a = p b) ->
  exists m',
    add_each_if p (Some m) (range2 order2 s) = Returns (Some m') /\
    (forall x, lookup (Some m') x = lookup (Some m) x || lookup s x && p x) /\
    Permutation (unequal_to_self m')
      (unequal_to_self m
       ++ filter (fun v => p v) (unequal_to_self (entries s))).
Proof. apply add_visited, range2_Permutation. Qed.

Lemma Contains_respects s a b :
  equal a b = true -> Contains s a = Contains s b.
Proof. apply lookup_congr. Qed.

(** X24.  Whatever the order in which each [range] loop visits its map,
    and for nil maps too, [Union] and [Intersect] return a new map.  A key is found
    in the union exactly when it is found in one of the arguments, and in
    the intersection exactly when it is found in both; whichever of the
    two [Intersect] iterates over.  Keys that differ from themselves,
    which no lookup finds, all pass into the union, each entry once (so
    that the union of such a set with itself has them twice), and none
    into the intersection. *)
Theorem Union_Intersect_spec s t :
  (exists out,
     Union order order2 s t = Returns (Some out) /\
     (forall x, Contains (Some out) x = Contains s x || Contains t x) /\
     Permutation (unequal_to_self out)
       (unequal_to_self (entries s) ++ unequal_to_self (entries t))) /\
  (exists out,
     Intersect order s t = Returns (Some out) /\
     (forall x, Contains (Some out) x = Contains s x && Contains t x) /\
     unequal_to_self out = []).
Proof.
  split.
  - unfold Union, add_each, make_.
    destruct (add_filtered s (fun _ => true) [] ltac:(reflexivity))
      as (m1 & E1 & L1 & N1).
    destruct (add_filtered2 t (fun _ => true) m1 ltac:(reflexivity))
      as (m2 & E2 & L2 & N2).
    rewrite E1. exists m2. split; [exact E2 |]. split.
    + intros x. unfold Contains. rewrite L2, L1. cbn [lookup entries existsb].
      rewrite !andb_true_r. reflexivity.
    + rewrite N2. rewrite !filter_true in *. cbn [app unequal_to_self filter] in N1.
      apply Permutation_app_tail. exact N1.
  - assert (Hcore : forall a b : @Set_ E,
               exists out,
                 add_each_if (fun v => Contains b v) make_ (range order a)
                 = Returns (Some out) /\
                 (forall x, Contains (Some out) x
                            = Contains a x && Contains b x) /\
                 unequal_to_self out = []).
    { intros a b.
      destruct (add_filtered a (fun v => Contains b v) []
                  (Contains_respects b)) as (m1 & E1 & L1 & N1).
      exists m1. split; [exact E1 |]. split.
      - intros x. unfold Contains. rewrite L1. reflexivity.
      - cbn [unequal_to_self filter app] in N1.
        rewrite filter_none in N1.
        + apply Permutation_sym, Permutation_nil in N1. exact N1.
        + intros v Hv. apply lookup_unequal_to_self.
          exact (In_unequal_to_self _ _ Hv). }
    unfold Intersect. destruct (len_ t <? len_ s).
    + destruct (Hcore t s) as (out & Eo & Lo & No). exists out.
      split; [exact Eo |]. split; [| exact No].
      intros x. rewrite Lo. apply andb_comm.
    + apply Hcore.
Qed.

Lemma negb_Contains_respects s a b :
  equal a b = true -> negb (Contains s a) = negb (Contains s b).
Proof. intros Hab. f_equal. apply lookup_congr. exact Hab. Qed.

Lemma filter_unfound s (l : list E) :
  filter (fun v => negb (Contains s v)) (unequal_to_self l)
  = unequal_to_self l.
Proof.
  apply filter_all. intros v Hv. unfold Contains.
  rewrite lookup_unequal_to_self; [reflexivity |].
  exact (In_unequal_to_self _ _ Hv).
Qed.

(** X25.  Whatever the order of iteration of each loop, and for nil maps
    too,
    [Difference] and [SymmetricDifference] return a new map.  A key is
    found in the difference exactly when it is found in [s] and not in
    [t], and in the symmetric difference exactly when it is found in one
    of [s] and [t] and not in the other.  Keys that differ from
    themselves are found in no map and so are never taken out: those of
    [s] all pass into the difference (the difference of a set with itself
    keeps them), those of both into the symmetric difference. *)
Theorem Difference_SymmetricDifference_spec s t :
  (exists out,
     Difference order s t = Returns (Some out) /\
     (forall x, Contains (Some out) x
                = Contains s x && negb (Contains t x)) /\
     Permutation (unequal_to_self out) (unequal_to_self (entries s))) /\
  (exists out,
     SymmetricDifference order order2 s t = Returns (Some out) /\
     (forall x, Contains (Some out) x
                = xorb (Contains s x) (Contains t x)) /\
     Permutation (unequal_to_self out)
       (unequal_to_self (entries s) ++ unequal_to_self (entries t))).
Proof.
  destruct (add_filtered s (fun v => negb (Contains t v)) []
              (negb_Contains_respects t)) as (m1 & E1 & L1 & N1).
  cbn [unequal_to_self filter app] in N1.
  change (filter (fun k => negb (equal k k)) (entries s))
    with (unequal_to_self (entries s)) in N1.
  rewrite filter_unfound in N1.
  split.
  - exists m1. unfold Difference, make_. split; [exact E1 |].
    split; [| exact N1].
    intros x. unfold Contains. rewrite L1. reflexivity.
  - destruct (add_filtered2 t (fun v => negb (Contains s v)) m1
                (negb_Contains_respects s)) as (m2 & E2 & L2 & N2).
    rewrite filter_unfound in N2.
    exists m2. unfold SymmetricDifference, make_. rewrite E1.
    split; [exact E2 |]. split.
    + intros x. unfold Contains in *. rewrite L2, L1.
      cbn [lookup entries existsb].
      destruct (lookup s x), (lookup t x); reflexivity.
    + rewrite N2. apply Permutation_app_tail. exact N1.
Qed.


(** *** Deleting *)

Lemma distinct_unique m k v :
  distinct m -> In k m -> In v m -> equal k v = true -> k = v.
Proof.
  induction m as [| a m IH]; cbn [distinct In]; [tauto |].
  intros [Ha Hm] [<- | Hk] [<- | Hv] Ekv; try reflexivity.
  - rewrite Forall_forall in Ha. rewrite (Ha v Hv) in Ekv. discriminate.
  - rewrite Forall_forall in Ha. rewrite equal_sym, (Ha k Hk) in Ekv.
    discriminate.
  - exact (IH Hm Hk Hv Ekv).
Qed.

Lemma filter_filter_and {A : Type} (p q : A -> bool) (l : list A) :
  filter p (filter q l) = filter (fun a => q a && p a) l.
Proof.
  induction l as [| a l IH]; [reflexivity |]. cbn [filter].
  destruct (q a); cbn [filter andb]; rewrite IH; reflexivity.
Qed.

Lemma entries_delete s v :
  entries (delete s v) = filter (fun k => negb (equal k v)) (entries s).
Proof. destruct s; reflexivity. Qed.

Lemma DeleteFunc_loop (f : E -> bool) vs : forall s,
  entries (fold_left (fun s v => if f v then snd (Delete s v) else s) vs s)
  = filter (fun k => negb (existsb (fun v => f v && equal k v) vs))
      (entries s)
  /\ (s = None ->
      fold_left (fun s v => if f v then snd (Delete s v) else s) vs s
      = None).
Proof.
  induction vs as [| v vs IH]; intros s; cbn [fold_left existsb].
  - split; [| auto]. cbn [negb]. symmetry. apply filter_all. reflexivity.
  - destruct (IH (if f v then snd (Delete s v) else s)) as [IHe IHn].
    split.
    + rewrite IHe. destruct (f v); cbn [Delete snd andb orb].
      * rewrite entries_delete, filter_filter_and. apply filter_ext.
        intros k. rewrite negb_orb. reflexivity.
      * reflexivity.
    + intros ->. apply IHn. destruct (f v); reflexivity.
Qed.

Lemma ContainsFunc_loop_existsb (f : E -> bool) vs :
  ContainsFunc_loop f vs = existsb f vs.
Proof.
  induction vs as [| v vs IH]; [reflexivity |].
  cbn [ContainsFunc_loop existsb]. destruct (f v); [reflexivity | exact IH].
Qed.

(** X27.  In a map (its entries have pairwise unequal keys), whatever the
    order of iteration and although [DeleteFunc] deletes from the map it
    ranges over: [DeleteFunc] removes exactly the entries whose key
    equals itself and on which [f] is true; an entry whose key differs
    from itself stays even if [f] is true on it, since [Delete] does not
    find it; a nil map stays nil.  [ContainsFunc] reports whether [f] is
    true on the key of some entry, keys that differ from themselves
    included. *)
Theorem DeleteFunc_ContainsFunc_spec s (f : E -> bool) :
  distinct (entries s) ->
  entries (DeleteFunc order s f)
  = filter (fun k => negb (f k && equal k k)) (entries s) /\
  (s = None -> DeleteFunc order s f = None) /\
  (ContainsFunc order s f = true
   <-> exists k, In k (entries s) /\ f k = true).
Proof.
  intros Hd. unfold DeleteFunc, ContainsFunc.
  destruct (DeleteFunc_loop f (range order s) s) as [He Hn].
  split; [| split; [exact Hn |]].
  - rewrite He. apply filter_ext_in. intros k Hk. f_equal.
    rewrite (existsb_Permutation _ _ _ (range_Permutation s)).
    apply eq_iff_eq_true. rewrite existsb_exists, andb_true_iff. split.
    + intros (v & Hv & Efv). apply andb_true_iff in Efv as [Fv Ekv].
      pose proof (distinct_unique _ _ _ Hd Hk Hv Ekv) as ->. auto.
    + intros [Fk Ekk]. exists k. rewrite Fk, Ekk. auto.
  - rewrite ContainsFunc_loop_existsb,
      (existsb_Permutation _ _ _ (range_Permutation s)).
    apply existsb_exists.
Qed.

End Ranges.

(** *** Maps stay maps *)

Lemma distinct_overwrite m v :
  distinct m -> distinct (map (fun k => if equal k v then v else k) m).
Proof.
  induction m as [| a m IH]; cbn [map distinct]; [tauto |].
  intros [Ha Hm]. split; [| exact (IH Hm)].
  rewrite Forall_forall in *. intros b' Hb'.
  apply in_map_iff in Hb' as (b & <- & Hb). specialize (Ha b Hb).
  destruct (equal a v) eqn:Eav, (equal b v) eqn:Ebv.
  - rewrite (equal_sym b v) in Ebv.
    rewrite (equal_trans _ _ _ Eav Ebv) in Ha. discriminate.
  - rewrite equal_sym. exact Ebv.
  - exact Eav.
  - exact Ha.
Qed.

Lemma distinct_app_one m v :
  distinct m -> (forall k, In k m -> equal k v = false) ->
  distinct (m ++ [v]).
Proof.
  induction m as [| a m IH]; cbn [app distinct In].
  - intros _ _. split; [constructor | exact I].
  - intros [Ha Hm] Hv. split.
    + apply Forall_app. split; [exact Ha |].
      constructor; [apply Hv; left; reflexivity | constructor].
    + apply IH; [exact Hm |]. intros k Hk. apply Hv. right. exact Hk.
Qed.

Lemma existsb_false {A : Type} (f : A -> bool) (l : list A) :
  existsb f l = false -> forall a, In a l -> f a = false.
Proof.
  intros Hl a Ha. apply not_true_is_false. intros Hf.
  assert (Ht : existsb f l = true) by (apply existsb_exists; eauto).
  congruence.
Qed.

Lemma existsb_map {A B : Type} (g : A -> B) (f : B -> bool) (l : list A) :
  existsb f (map g l) = existsb (fun a => f (g a)) l.
Proof.
  induction l as [| a l IH]; [reflexivity |]. cbn [map existsb].
  rewrite IH. reflexivity.
Qed.

Lemma assign_distinct m v m' :
  assign (Some m) v = Returns (Some m') -> distinct m -> distinct m'.
Proof.
  unfold assign. destruct (existsb (fun k => equal k v) m) eqn:Ex;
    intros Em Hd; injection Em as <-.
  - apply distinct_overwrite. exact Hd.
  - apply distinct_app_one; [exact Hd |].
    exact (existsb_false _ _ Ex).
Qed.

Lemma distinct_app_cons m v vs :
  distinct (m ++ v :: vs) -> existsb (fun k => equal k v) m = false.
Proof.
  induction m as [| a m IH]; cbn [app distinct existsb]; [reflexivity |].
  intros [Ha Hm]. rewrite (IH Hm), orb_false_r.
  rewrite Forall_forall in Ha. apply Ha, in_or_app. right. left.
  reflexivity.
Qed.

(** Adding keys none of which equals another or a key of the map makes
    an entry for each. *)
Lemma add_each_distinct vs : forall m,
  distinct (m ++ vs) -> add_each (Some m) vs = Returns (Some (m ++ vs)).
Proof.
  unfold add_each.
  induction vs as [| v vs IH]; intros m Hd; cbn [add_each_if].
  - rewrite app_nil_r. reflexivity.
  - unfold Add, assign, lookup, entries.
    rewrite (distinct_app_cons _ _ _ Hd).
    replace (m ++ v :: vs) with ((m ++ [v]) ++ vs) in *
      by (rewrite <- app_assoc; reflexivity).
    apply IH. exact Hd.
Qed.

Lemma distinct_Permutation (l l' : list E) :
  Permutation l l' -> distinct l -> distinct l'.
Proof.
  induction 1 as [| a l l' Hp IH | a b l | l l' l'' _ IH1 _ IH2];
    cbn [distinct].
  - tauto.
  - intros [Ha Hl]. split; [| exact (IH Hl)].
    exact (Permutation_Forall Hp Ha).
  - intros [Ha [Hb Hl]]. inversion Ha as [| ? ? Eab Ha']; subst.
    split; [| split; [exact Ha' | exact Hl]].
    constructor; [| exact Hb]. rewrite equal_sym. exact Eab.
  - intros Hl. exact (IH2 (IH1 Hl)).
Qed.

(** X28.  [Add] panics on the nil map.  On any other map it returns
    whether the key was not found before, and afterwards a key is found
    exactly when it was found before or equals the added one; the map
    grows by one entry exactly when [Add] returns true, and its keys stay
    pairwise unequal.  For a key that
    equals itself and was not found, [Delete] after [Add] returns true and
    restores the map.  A key that differs from itself is not found after
    its [Add]; [Delete] of it returns false and removes nothing, and each
    [Add] of it makes one more entry.  [Delete] returns whether the key
    was found, takes away just the keys equal to it, and leaves a nil map
    nil. *)
Theorem Add_Delete_round_trip m s v :
  (exists msg, Add None v = Panics msg) /\
  (exists m',
     Add (Some m) v = Returns (negb (Contains (Some m) v), Some m') /\
     (forall x, Contains (Some m') x = Contains (Some m) x || equal v x) /\
     len_ (Some m')
     = len_ (Some m) + (if Contains (Some m) v then 0 else 1) /\
     (distinct m -> distinct m') /\
     (equal v v = true -> Contains (Some m) v = false ->
      Delete (Some m') v = (true, Some m)) /\
     (equal v v = false ->
      m' = m ++ [v] /\ Contains (Some m') v = false /\
      Delete (Some m') v = (false, Some m'))) /\
  fst (Delete s v) = Contains s v /\
  (forall x, Contains (snd (Delete s v)) x
             = Contains s x && negb (equal v x)) /\
  Delete None v = (false, None).
Proof.
  split; [eexists; reflexivity |]. split; [| split; [reflexivity | split]].
  - destruct (assign_Some m v) as (m' & Em & Lm & _ & Sm).
    exists m'. unfold Add, Contains. rewrite Em.
    split; [reflexivity |]. split; [exact Lm |].
    split; [| split; [| split]].
    + unfold len_, entries. rewrite Sm.
      destruct (lookup (Some m) v); lia.
    + exact (assign_distinct _ _ _ Em).
    + intros Hvv Hnot. unfold assign in Em. unfold lookup, entries in Hnot.
      rewrite Hnot in Em. injection Em as <-.
      unfold Delete, lookup, delete, entries. rewrite existsb_app.
      cbn [existsb]. rewrite Hnot, Hvv. cbn [orb]. f_equal. f_equal.
      rewrite filter_app. cbn [filter]. rewrite Hvv. cbn [negb].
      rewrite app_nil_r. apply filter_all. intros k Hk.
      apply negb_true_iff. apply not_true_is_false. intros Ekv.
      assert (Ht : existsb (fun k0 => equal k0 v) m = true)
        by (apply existsb_exists; exists k; auto).
      congruence.
    + intros Hvv.
      pose proof (lookup_unequal_to_self (Some m) v Hvv) as Hnot.
      unfold assign in Em. unfold lookup, entries in Hnot.
      rewrite Hnot in Em. injection Em as <-.
      split; [reflexivity |].
      split; [apply lookup_unequal_to_self; exact Hvv |].
      unfold Delete. rewrite (lookup_unequal_to_self _ v Hvv).
      f_equal. unfold delete. f_equal. apply filter_all.
      intros k Hk. apply negb_true_iff. apply not_true_is_false.
      intros Ekv. rewrite (equal_right_refl _ _ Ekv) in Hvv. discriminate.
  - intros x. unfold Delete, Contains, lookup. cbn [snd].
    rewrite entries_delete, existsb_filter. apply eq_iff_eq_true.
    rewrite andb_true_iff, negb_true_iff, !existsb_exists. split.
    + intros (k & Hk & Ek). apply andb_true_iff in Ek as [Nkv Ekx].
      apply negb_true_iff in Nkv. split; [exists k; auto |].
      apply not_true_is_false. intros Evx.
      rewrite (equal_congr k x v Ekx) in Nkv.
      rewrite equal_sym, Evx in Nkv. discriminate.
    + intros [(k & Hk & Ekx) Nvx]. exists k. split; [exact Hk |].
      rewrite Ekx, andb_true_r. apply negb_true_iff.
      rewrite (equal_congr k x v Ekx), equal_sym. exact Nvx.
  - reflexivity.
Qed.

End Facts.

Lemma Union_Intersect_spec_witness :
  @ComparableLaws (option Z) Comparable_with_NaN /\
  (forall m : list (option Z), Permutation (rev m) m) /\
  (forall m : list (option Z), Permutation (rotate m) m) /\
  (exists out,
     Union (@rev _) (@rotate _) s_1_nan s_nan_2 = Returns (Some out) /\
     (forall x, Contains (Some out) x
                = Contains s_1_nan x || Contains s_nan_2 x) /\
     Permutation (unequal_to_self out) ([None] ++ [None])) /\
  (exists out,
     Intersect (@rev _) s_1_nan s_nan_2 = Returns (Some out) /\
     (forall x, Contains (Some out) x
                = Contains s_1_nan x && Contains s_nan_2 x) /\
     unequal_to_self out = []).
Proof.
  split; [exact ComparableLaws_with_NaN |].
  split; [exact rev_visits_each_entry_once |].
  split; [exact rotate_visits_each_entry_once |].
  exact (Union_Intersect_spec (H0 := ComparableLaws_with_NaN)
           (@rev _) (@rotate _) rev_visits_each_entry_once
           rotate_visits_each_entry_once s_1_nan s_nan_2).
Defined.

Lemma Difference_SymmetricDifference_spec_witness :
  @ComparableLaws (option Z) Comparable_with_NaN /\
  (forall m : list (option Z), Permutation (rev m) m) /\
  (forall m : list (option Z), Permutation (rotate m) m) /\
  (exists out,
     Difference (@rev _) s_1_nan s_1_nan = Returns (Some out) /\
     (forall x, Contains (Some out) x
                = Contains s_1_nan x && negb (Contains s_1_nan x)) /\
     Permutation (unequal_to_self out) [None]) /\
  (exists out,
     SymmetricDifference (@rev _) (@rotate _) s_1_nan s_1_nan
     = Returns (Some out) /\
     (forall x, Contains (Some out) x
                = xorb (Contains s_1_nan x) (Contains s_1_nan x)) /\
     Permutation (unequal_to_self out) ([None] ++ [None])).
Proof.
  split; [exact ComparableLaws_with_NaN |].
  split; [exact rev_visits_each_entry_once |].
  split; [exact rotate_visits_each_entry_once |].
  exact (Difference_SymmetricDifference_spec
           (H0 := ComparableLaws_with_NaN) (@rev _) (@rotate _)
           rev_visits_each_entry_once rotate_visits_each_entry_once
           s_1_nan s_1_nan).
Defined.


Lemma DeleteFunc_ContainsFunc_spec_witness :
  @ComparableLaws (option Z) Comparable_with_NaN /\
  (forall m : list (option Z), Permutation (rev m) m) /\
  distinct (entries s_1_nan) /\
  entries (DeleteFunc (@rev _) s_1_nan (fun _ => true)) = [None] /\
  (s_1_nan = None -> DeleteFunc (@rev _) s_1_nan (fun _ => true) = None) /\
  (ContainsFunc (@rev _) s_1_nan (fun _ => true) = true
   <-> exists k, In k (entries s_1_nan) /\ true = true).
Proof.
  assert (Hd : distinct (entries s_1_nan)) by (cbn; repeat constructor).
  split; [exact ComparableLaws_with_NaN |].
  split; [exact rev_visits_each_entry_once |].
  split; [exact Hd |].
  exact (DeleteFunc_ContainsFunc_spec (H0 := ComparableLaws_with_NaN)
           (@rev _) rev_visits_each_entry_once s_1_nan (fun _ => true) Hd).
Defined.

Lemma Add_Delete_round_trip_witness :
  @ComparableLaws (option Z) Comparable_with_NaN /\
  (exists msg, Add None (Some 2) = Panics msg) /\
  (exists m',
     Add s_1_nan (Some 2)
     = Returns (negb (Contains s_1_nan (Some 2)), Some m') /\
     (forall x, Contains (Some m') x
                = Contains s_1_nan x || equal (Some 2) x) /\
     len_ (Some m')
     = len_ s_1_nan + (if Contains s_1_nan (Some 2) then 0 else 1) /\
     (distinct (entries s_1_nan) -> distinct m') /\
     (equal (Some 2) (Some 2) = true -> Contains s_1_nan (Some 2) = false ->
      Delete (Some m') (Some 2) = (true, s_1_nan)) /\
     (equal (Some 2) (Some 2) = false ->
      m' = entries s_1_nan ++ [Some 2] /\
      Contains (Some m') (Some 2) = false /\
      Delete (Some m') (Some 2) = (false, Some m'))) /\
  fst (Delete s_nan_2 (Some 2)) = Contains s_nan_2 (Some 2) /\
  (forall x, Contains (snd (Delete s_nan_2 (Some 2))) x
             = Contains s_nan_2 x && negb (equal (Some 2) x)) /\
  Delete None (Some 2) = (false, None).
Proof.
  split; [exact ComparableLaws_with_NaN |].
  exact (Add_Delete_round_trip (H0 := ComparableLaws_with_NaN)
           (entries s_1_nan) s_nan_2 (Some 2)).
Defined.

Section KeysValuesFacts.
Context {K V : Type} `{ComparableLaws K} `{ComparableLaws V}.

Variable morder : list (K * V) -> list (K * V).
Hypothesis morder_visits_each_entry_once :
  forall m, Permutation (morder m) m.

(** X29.  Of a map (its keys are pairwise unequal), whatever the order
    of iteration and for the nil map too: [Keys] returns a new map with
    one entry for each key of the map, keys that differ from themselves
    included; [Values] returns a new map in which a key is found exactly
    when it equals the value of some entry, with an entry of its own for
    each value that differs from itself and no more entries than the map
    has. *)
Theorem Keys_Values_spec (m : list (K * V)) :
  distinct (map fst m) ->
  (Keys morder m = Returns (Some (map fst (morder m))) /\
   Permutation (map fst (morder m)) (map fst m)) /\
  (exists vs,
     Values morder m = Returns (Some vs) /\
     (forall x, Contains (Some vs) x
                = existsb (fun kv => equal (snd kv) x) m) /\
     Permutation (unequal_to_self vs) (unequal_to_self (map snd m)) /\
     len_ (Some vs) <= Z.of_nat (length m)).
Proof.
  intros Hd.
  pose proof (morder_visits_each_entry_once m) as Hp.
  split.
  - pose proof (Permutation_map fst Hp) as Hk. split; [| exact Hk].
    unfold Keys, make_.
    apply (add_each_distinct (map fst (morder m)) []). cbn [app].
    exact (distinct_Permutation _ _ (Permutation_sym Hk) Hd).
  - destruct (add_each_if_Some (fun _ => true) (map snd (morder m)) [])
      as (vs & Ev & Lv & Nv & Sv).
    rewrite filter_true in *. exists vs. unfold Values, add_each, make_.
    split; [exact Ev |]. split; [| split].
    + intros x. unfold Contains. rewrite Lv. cbn [lookup entries existsb orb].
      rewrite existsb_map. apply existsb_Permutation. exact Hp.
    + rewrite Nv. cbn [unequal_to_self filter app].
      apply filter_Permutation, Permutation_map. exact Hp.
    + unfold len_, entries. cbn [length] in Sv. rewrite length_map in Sv.
      rewrite (Permutation_length Hp) in Sv. lia.
Qed.

End KeysValuesFacts.

Lemma Keys_Values_spec_witness :
  @ComparableLaws Z Comparable_int /\
  @ComparableLaws (option Z) Comparable_with_NaN /\
  (forall m : list (Z * option Z), Permutation (rev m) m) /\
  distinct (map fst m_nan_nan) /\
  (Keys (@rev _) m_nan_nan = Returns (Some [2; 1]) /\
   Permutation [2; 1] [1; 2]) /\
  (exists vs,
     Values (@rev _) m_nan_nan = Returns (Some vs) /\
     (forall x, Contains (Some vs) x
                = existsb (fun kv => equal (snd kv) x) m_nan_nan) /\
     Permutation (unequal_to_self vs) [None; None] /\
     len_ (Some vs) <= 2).
Proof.
  assert (Hd : distinct (map fst m_nan_nan)) by (cbn; repeat constructor).
  split; [exact ComparableLaws_int |].
  split; [exact ComparableLaws_with_NaN |].
  split; [exact rev_visits_each_entry_once |].
  split; [exact Hd |].
  exact (Keys_Values_spec (H0 := ComparableLaws_int)
           (H2 := ComparableLaws_with_NaN) (@rev _)
           rev_visits_each_entry_once m_nan_nan Hd).
Defined.

End SetsFacts.
